(** * NV12 to RGB(A) conversion (cuda/cudaYUV-NV12.cu)

    A shallow embedding of the colour-conversion kernel [NV12ToRGBA], of its
    per-pixel transform [YUV2RGB] and of the host wrapper [launchNV12ToRGBA],
    followed by the properties of the conversion that were checked against
    it.

    Conventions of the embedding.
    - C integers are values of [Z]; every 32-bit operation of the source has
      its wrap-around written out ([u32], [add32], [mul32], ...), and the
      conversions between [int] and [uint32_t] are explicit ([to_int]).
    - [float] is IEEE 754 binary32, taken from the executable specification
      of the Standard Library ([SpecFloat], precision 24, emax 128); every
      operation of the source rounds on its own, as the source is written.
    - Device memory is not a value of the model: a unit of work returns the
      log of its loads from the source buffer and of its stores to the
      destination buffer ([event]), which is what the memory-safety and
      coverage properties talk about. *)

From Stdlib Require Import ZArith List Bool Lia Floats.SpecFloat.
From coqutil Require Import Z.bitblast.
Import ListNotations.
Local Open Scope Z_scope.

(** ** Machine integers *)

Module Int32.

Definition u8 (z : Z) : Z := z mod 2 ^ 8.
Definition u32 (z : Z) : Z := z mod 2 ^ 32.

(** Conversion of a 32-bit pattern to [int] (two's complement). *)
Definition to_int (z : Z) : Z :=
  let w := u32 z in if w <? 2 ^ 31 then w else w - 2 ^ 32.

Definition add32 (a b : Z) : Z := u32 (a + b).
Definition sub32 (a b : Z) : Z := u32 (a - b).
Definition mul32 (a b : Z) : Z := u32 (a * b).
Definition shl32 (a n : Z) : Z := u32 (Z.shiftl a n).
Definition shr32 (a n : Z) : Z := Z.shiftr (u32 a) n.
Definition or32 (a b : Z) : Z := Z.lor (u32 a) (u32 b).
Definition and32 (a b : Z) : Z := Z.land (u32 a) (u32 b).

End Int32.
Import Int32.

(** ** Single-precision floating point *)

Module F32.

Definition prec : Z := 24.
Definition emax : Z := 128.

Definition float : Set := spec_float.

(** Conversion of an integer to [float] (round to nearest even). *)
Definition of_Z (n : Z) : float := binary_normalize prec emax n 0 false.

Definition add : float -> float -> float := SFadd prec emax.
Definition sub : float -> float -> float := SFsub prec emax.
Definition mul : float -> float -> float := SFmul prec emax.
Definition div : float -> float -> float := SFdiv prec emax.

(** A decimal literal [n / 10^k]: the binary32 number nearest to it, which
    is the correctly rounded quotient of the two integers (both are
    represented exactly for the literals of this file). *)
Definition decimal (n : Z) (k : Z) : float := div (of_Z n) (of_Z (10 ^ k)).

Definition sgn (s : bool) : Z := if s then -1 else 1.

(** Comparison of the represented values.  On two finite numbers the
    mantissas are brought to the smaller of the two exponents and compared
    as integers, so the answer does not depend on the representation being
    normalised; the other cases are those of [SFcompare]. *)
Definition compare (x y : float) : option comparison :=
  match x, y with
  | S754_finite s1 m1 e1, S754_finite s2 m2 e2 =>
      let e0 := Z.min e1 e2 in
      Some (Z.compare (sgn s1 * Z.pos m1 * 2 ^ (e1 - e0))
                      (sgn s2 * Z.pos m2 * 2 ^ (e2 - e0)))
  | _, _ => SFcompare x y
  end.

Definition leb (x y : float) : bool :=
  match compare x y with
  | Some (Lt | Eq) => true
  | _ => false
  end.

Definition is_nan (x : float) : bool :=
  match x with S754_nan => true | _ => false end.

(** [fmaxf] and [fminf]: the larger (smaller) argument; when one argument
    is not a number, the other one. *)
Definition fmaxf (x y : float) : float :=
  match compare x y with
  | Some Lt => y
  | Some _ => x
  | None => if is_nan x then y else x
  end.

Definition fminf (x y : float) : float :=
  match compare x y with
  | Some Gt => y
  | Some _ => x
  | None => if is_nan x then y else x
  end.

(** Conversion to an integer, rounding toward zero (the conversion C
    applies when a [float] initialises an integer channel).  Infinities
    and NaN have no integer value; the model gives 0 for them. *)
Definition trunc (x : float) : Z :=
  match x with
  | S754_finite s m e => sgn s * Z.shiftl (Z.pos m) e
  | _ => 0
  end.

End F32.

Definition float := F32.float.

(** ** Pixels *)

(** The four instantiations of the template parameter [T]. *)
Inductive pixel_type : Set := uchar3 | uchar4 | float3 | float4.

(** A destination element: a vector of the type [T] for [NV12ToRGBA], or a
    packed [uint32_t] for [Passthru]. *)
Inductive pixel : Set :=
| Uchar3 (x y z : Z)
| Uchar4 (x y z w : Z)
| Float3 (x y z : float)
| Float4 (x y z w : float)
| Packed32 (word : Z).

Definition sizeof (T : pixel_type) : Z :=
  match T with
  | uchar3 => 3
  | uchar4 => 4
  | float3 => 12
  | float4 => 16
  end.

Definition channels (T : pixel_type) : Z :=
  match T with
  | uchar3 | float3 => 3
  | uchar4 | float4 => 4
  end.

Definition uchar_of_float (f : float) : Z := u8 (F32.trunc f).

(** Modelled from the spec: [make_vec<T>] of cudaVector.h, which is not part
    of the sources at hand.  It is the generic "construct a pixel of type T
    from 4 scalars" operation: the scalars are stored in the element's native
    numeric type (byte or floating point), and a 3-channel type has no place
    for the fourth. *)
Definition make_vec (T : pixel_type) (x y z w : float) : pixel :=
  match T with
  | uchar3 => Uchar3 (uchar_of_float x) (uchar_of_float y) (uchar_of_float z)
  | uchar4 => Uchar4 (uchar_of_float x) (uchar_of_float y) (uchar_of_float z)
                     (uchar_of_float w)
  | float3 => Float3 x y z
  | float4 => Float4 x y z w
  end.

Record uint3 : Set := make_uint3 { u3_x : Z; u3_y : Z; u3_z : Z }.

(** ** The per-pixel transform *)

Definition clamp (x : float) : float :=
  F32.fminf (F32.fmaxf x (F32.of_Z 0)) (F32.of_Z 255).

(** The three colour channels of [YUV2RGB] before they are packed. *)
Definition YUV2RGB_channels (yuvi : uint3) : float * float * float :=
  let luma := F32.of_Z (u3_x yuvi) in
  let u := F32.sub (F32.of_Z (u3_y yuvi)) (F32.of_Z 512) in
  let v := F32.sub (F32.of_Z (u3_z yuvi)) (F32.of_Z 512) in
  let s := F32.mul (F32.div (F32.of_Z 1) (F32.of_Z 1024)) (F32.of_Z 255) in
  (clamp (F32.mul (F32.add luma (F32.mul (F32.decimal 1140 3) v)) s),
   clamp (F32.mul (F32.sub (F32.sub luma (F32.mul (F32.decimal 395 3) u))
                           (F32.mul (F32.decimal 581 3) v)) s),
   clamp (F32.mul (F32.add luma (F32.mul (F32.decimal 2032 3) u)) s)).

Definition YUV2RGB (T : pixel_type) (yuvi : uint3) : pixel :=
  let '(r, g, b) := YUV2RGB_channels yuvi in
  make_vec T r g b (F32.of_Z 255).

(** ** Device memory accesses *)

(** What a unit of work does to device memory: a load of the byte
    [srcImageU8[off]], or a store [dstImage[idx] = v] of one destination
    element (the index counts elements of type [T], not bytes). *)
Inductive event : Set :=
| Load (off : Z)
| Store (idx : Z) (v : pixel).

(** Device code: a result together with the log of its memory accesses, in
    program order. *)
Definition Dev (A : Type) : Type := (A * list event)%type.

Definition ret {A : Type} (a : A) : Dev A := (a, []).

Definition bind {A B : Type} (m : Dev A) (k : A -> Dev B) : Dev B :=
  (fst (k (fst m)), snd m ++ snd (k (fst m))).

Notation "x <- m ;; k" := (bind m (fun x => k))
  (at level 61, m at next level, right associativity).
Notation "' p <- m ;; k" := (bind m (fun p => k))
  (at level 61, p pattern, m at next level, right associativity).

Definition load (srcImageU8 : Z -> Z) (off : Z) : Dev Z :=
  (u8 (srcImageU8 off), [Load off]).

Definition store (idx : Z) (v : pixel) : Dev unit := (tt, [Store idx v]).

Definition loads (l : list event) : list Z :=
  flat_map (fun e => match e with Load off => [off] | Store _ _ => [] end) l.

Definition stores (l : list event) : list (Z * pixel) :=
  flat_map (fun e => match e with Load _ => [] | Store i v => [(i, v)] end) l.

(** ** The kernel *)

Record dim3 : Set := mk_dim3 { dim_x : Z; dim_y : Z; dim_z : Z }.

Definition COLOR_COMPONENT_MASK : Z := 0x3FF.
Definition COLOR_COMPONENT_BIT_SIZE : Z := 10.

(** The three 10-bit fields of a packed [yuv101010Pel] word. *)
Definition unpack_yuv (pel : Z) : uint3 :=
  make_uint3
    (and32 pel COLOR_COMPONENT_MASK)
    (and32 (shr32 pel COLOR_COMPONENT_BIT_SIZE) COLOR_COMPONENT_MASK)
    (and32 (shr32 pel (Z.shiftl COLOR_COMPONENT_BIT_SIZE 1))
           COLOR_COMPONENT_MASK).

(** The coordinates a unit of work computes for itself: its left column
    [blockIdx.x * (blockDim.x << 1) + (threadIdx.x << 1)] and its row
    [blockIdx.y * blockDim.y + threadIdx.y], computed on [unsigned int] and
    stored in an [int]. *)
Definition thread_x (blockIdx blockDim threadIdx : dim3) : Z :=
  to_int (add32 (mul32 (dim_x blockIdx) (shl32 (dim_x blockDim) 1))
                (shl32 (dim_x threadIdx) 1)).

Definition thread_y (blockIdx blockDim threadIdx : dim3) : Z :=
  to_int (add32 (mul32 (dim_y blockIdx) (dim_y blockDim)) (dim_y threadIdx)).

(** One unit of work of [NV12ToRGBA<T>], for the thread [threadIdx] of the
    block [blockIdx].  [width] and [height] are the kernel's [uint32_t]
    parameters, [nSourcePitch] and [nDestPitch] its [size_t] ones; [x], [y]
    and [y_chroma] are [int], and take part in unsigned arithmetic wherever
    the source mixes them with a [uint32_t].  The first value given to
    [processingPitch] is overwritten before it is used and is left out;
    [chroma_at], [Cb_shift] and [Cr_shift] name expressions the source
    writes out at each use. *)
Definition NV12ToRGBA (T : pixel_type) (blockIdx blockDim threadIdx : dim3)
    (srcImageU8 : Z -> Z) (nSourcePitch nDestPitch : Z)
    (width height : Z) : Dev unit :=
  let processingPitch := u32 nSourcePitch in
  let x := thread_x blockIdx blockDim threadIdx in
  let y := thread_y blockIdx blockDim threadIdx in
  if u32 x >=? width then ret tt
  else if u32 y >=? height then ret tt
  else
    luma0 <- load srcImageU8 (add32 (mul32 y processingPitch) x) ;;
    luma1 <- load srcImageU8 (add32 (add32 (mul32 y processingPitch) x) 1) ;;
    let pel0 := shl32 luma0 2 in
    let pel1 := shl32 luma1 2 in
    let chromaOffset := mul32 processingPitch height in
    let y_chroma := Z.shiftr y 1 in
    let chroma_at (row col : Z) : Z :=
      add32 (add32 chromaOffset (mul32 row processingPitch)) col in
    let Cb_shift := COLOR_COMPONENT_BIT_SIZE + 2 in
    let Cr_shift := Z.shiftl COLOR_COMPONENT_BIT_SIZE 1 + 2 in
    ' (pel0, pel1) <-
      (if negb (Z.land y 1 =? 0) then
         (* odd scanline *)
         chromaCb <- load srcImageU8 (chroma_at y_chroma x) ;;
         chromaCr <- load srcImageU8 (add32 (chroma_at y_chroma x) 1) ;;
         ' (chromaCb, chromaCr) <-
           (if u32 y_chroma <? sub32 (shr32 height 1) 1 then
              (* interpolate chroma vertically *)
              nextCb <- load srcImageU8 (chroma_at (y_chroma + 1) x) ;;
              let chromaCb := shr32 (add32 (add32 chromaCb nextCb) 1) 1 in
              nextCr <- load srcImageU8
                             (add32 (chroma_at (y_chroma + 1) x) 1) ;;
              let chromaCr := shr32 (add32 (add32 chromaCr nextCr) 1) 1 in
              ret (chromaCb, chromaCr)
            else ret (chromaCb, chromaCr)) ;;
         let pel0 := or32 pel0 (shl32 chromaCb Cb_shift) in
         let pel0 := or32 pel0 (shl32 chromaCr Cr_shift) in
         let pel1 := or32 pel1 (shl32 chromaCb Cb_shift) in
         let pel1 := or32 pel1 (shl32 chromaCr Cr_shift) in
         ret (pel0, pel1)
       else
         cb0 <- load srcImageU8 (chroma_at y_chroma x) ;;
         let pel0 := or32 pel0 (shl32 cb0 Cb_shift) in
         cr0 <- load srcImageU8 (add32 (chroma_at y_chroma x) 1) ;;
         let pel0 := or32 pel0 (shl32 cr0 Cr_shift) in
         cb1 <- load srcImageU8 (chroma_at y_chroma x) ;;
         let pel1 := or32 pel1 (shl32 cb1 Cb_shift) in
         cr1 <- load srcImageU8 (add32 (chroma_at y_chroma x) 1) ;;
         let pel1 := or32 pel1 (shl32 cr1 Cr_shift) in
         ret (pel0, pel1)) ;;
    let yuvi_0 := unpack_yuv pel0 in
    let yuvi_1 := unpack_yuv pel1 in
    _ <- store (add32 (mul32 y width) x) (YUV2RGB T yuvi_0) ;;
    store (add32 (add32 (mul32 y width) x) 1) (YUV2RGB T yuvi_1).

(** ** The luma-only kernel *)

Definition RGBAPACK_8bit (red green blue : float) (alpha : Z) : Z :=
  let red := F32.fminf (F32.fmaxf red (F32.of_Z 0)) (F32.of_Z 255) in
  let green := F32.fminf (F32.fmaxf green (F32.of_Z 0)) (F32.of_Z 255) in
  let blue := F32.fminf (F32.fmaxf blue (F32.of_Z 0)) (F32.of_Z 255) in
  or32 (or32 (or32 (shl32 (u32 (F32.trunc red)) 24)
                   (shl32 (u32 (F32.trunc green)) 16))
             (shl32 (u32 (F32.trunc blue)) 8))
       (u32 alpha).

Definition RGBAPACK_10bit (red green blue : float) (alpha : Z) : Z :=
  let red := F32.fminf (F32.fmaxf red (F32.of_Z 0)) (F32.of_Z 1023) in
  let green := F32.fminf (F32.fmaxf green (F32.of_Z 0)) (F32.of_Z 1023) in
  let blue := F32.fminf (F32.fmaxf blue (F32.of_Z 0)) (F32.of_Z 1023) in
  or32 (or32 (or32 (shl32 (shr32 (u32 (F32.trunc red)) 2) 24)
                   (shl32 (shr32 (u32 (F32.trunc green)) 2) 16))
             (shl32 (shr32 (u32 (F32.trunc blue)) 2) 8))
       (u32 alpha).

(** One unit of work of [Passthru], the kernel next to [NV12ToRGBA] in the
    source: it writes the luma as a grey pixel, and finds the row of a pixel
    in the destination with the destination pitch. *)
Definition Passthru (blockIdx blockDim threadIdx : dim3)
    (srcImageU8 : Z -> Z) (nSourcePitch nDestPitch : Z)
    (width height : Z) : Dev unit :=
  let dstImagePitch := u32 (Z.shiftr nDestPitch 2) in
  let processingPitch := u32 nSourcePitch in
  let x := thread_x blockIdx blockDim threadIdx in
  let y := thread_y blockIdx blockDim threadIdx in
  if u32 x >=? width then ret tt
  else if u32 y >=? height then ret tt
  else
    pel0 <- load srcImageU8 (add32 (mul32 y processingPitch) x) ;;
    pel1 <- load srcImageU8 (add32 (add32 (mul32 y processingPitch) x) 1) ;;
    let luma0 := F32.of_Z (and32 pel0 0x00FF) in
    let luma1 := F32.of_Z (and32 pel1 0x00FF) in
    _ <- store (add32 (mul32 y dstImagePitch) x)
               (Packed32 (RGBAPACK_8bit luma0 luma0 luma0 255)) ;;
    store (add32 (add32 (mul32 y dstImagePitch) x) 1)
          (Packed32 (RGBAPACK_8bit luma1 luma1 luma1 255)).

(** ** The launch wrapper *)

Inductive cudaError_t : Set :=
| cudaSuccess
| cudaErrorInvalidValue
| cudaErrorInvalidDevicePointer
| cudaErrorRuntime (code : Z).

(** Modelled from the spec: [iDivUp] of cudaUtility.h, which is not part of
    the sources at hand.  The grid is sized with the ceiling of the quotient
    of the image extent by the block extent. *)
Definition iDivUp (a b : Z) : Z :=
  if a mod b =? 0 then a / b else a / b + 1.

(** The indices [0, 1, ..., n-1]. *)
Definition zrange (n : Z) : list Z := map Z.of_nat (seq 0 (Z.to_nat n)).

(** All index triples below the extents [d], the x index running fastest. *)
Definition dim3_range (d : dim3) : list dim3 :=
  flat_map (fun z =>
    flat_map (fun y =>
      map (fun x => mk_dim3 x y z) (zrange (dim_x d)))
      (zrange (dim_y d)))
    (zrange (dim_z d)).

(** The units of work of a launch [<<<gridDim, blockDim>>>], as pairs
    (blockIdx, threadIdx). *)
Definition grid_threads (gridDim blockDim : dim3) : list (dim3 * dim3) :=
  flat_map (fun blockIdx =>
    map (fun threadIdx => (blockIdx, threadIdx)) (dim3_range blockDim))
    (dim3_range gridDim).

(** The accesses of a whole launch.  The units of work are independent of
    each other; the log lists them block after block. *)
Definition run_kernel (gridDim blockDim : dim3)
    (kernel : dim3 -> dim3 -> dim3 -> Dev unit) : list event :=
  flat_map (fun bt => snd (kernel (fst bt) blockDim (snd bt)))
           (grid_threads gridDim blockDim).

(** The execution configuration of [launchNV12ToRGBA]: its local constants
    [blockDim] and [gridDim]. *)
Definition launch_blockDim : dim3 := mk_dim3 32 8 1.

Definition launch_gridDim (width height : Z) : dim3 :=
  mk_dim3 (iDivUp width (dim_x launch_blockDim))
          (iDivUp height (dim_y launch_blockDim)) 1.

(** [launchNV12ToRGBA<T>].  Pointers are device addresses, 0 being the null
    pointer; [mem] is the content of device memory and [lastError] what
    [cudaGetLastError] reports after the launch.  The result is the error
    code together with the memory accesses the call gave rise to. [width]
    and [height] are [size_t] and are converted to the kernel's [uint32_t]
    parameters at the launch. *)
Definition launchNV12ToRGBA (T : pixel_type) (mem : Z -> Z)
    (lastError : cudaError_t)
    (srcDev srcPitch destDev destPitch width height : Z)
    : cudaError_t * list event :=
  if (srcDev =? 0) || (destDev =? 0) then (cudaErrorInvalidDevicePointer, [])
  else if (srcPitch =? 0) || (destPitch =? 0) || (width =? 0) || (height =? 0)
  then (cudaErrorInvalidValue, [])
  else
    (lastError,
     run_kernel (launch_gridDim width height) launch_blockDim
       (fun blockIdx blockDim threadIdx =>
          NV12ToRGBA T blockIdx blockDim threadIdx
                     (fun off => mem (srcDev + off))
                     srcPitch destPitch (u32 width) (u32 height))).

(** The entry points [cudaNV12ToRGB] (for [uchar3] and [float3]) and
    [cudaNV12ToRGBA] (for [uchar4] and [float4]): with explicit pitches they
    are the launch wrapper at their type, and without they take both buffers
    as packed, [width * sizeof(uint8_t)] and [width * sizeof(T)]. *)
Definition cudaNV12ToRGB_pitched := launchNV12ToRGBA.

Definition cudaNV12ToRGB_packed (T : pixel_type) (mem : Z -> Z)
    (lastError : cudaError_t) (srcDev destDev width height : Z)
    : cudaError_t * list event :=
  cudaNV12ToRGB_pitched T mem lastError srcDev (width * 1)
                        destDev (width * sizeof T) width height.

(** The destination buffer as a partial map from element index to pixel, and
    the effect of a log of accesses on it. *)
Definition dest_buffer : Type := Z -> option pixel.

Definition apply_event (d : dest_buffer) (e : event) : dest_buffer :=
  match e with
  | Load _ => d
  | Store i v => fun j => if j =? i then Some v else d j
  end.

Definition apply_events (d : dest_buffer) (l : list event) : dest_buffer :=
  fold_left apply_event l d.

(** ** Buffer extents *)

(** The declared extent of the source buffer in bytes: [height] luma rows
    followed by [height / 2] chroma rows, every row [pitch] bytes long. *)
Definition src_extent (pitch height : Z) : Z :=
  pitch * height + pitch * (height / 2).

(** The extent of the destination buffer in elements. *)
Definition dest_extent (width height : Z) : Z := width * height.

(** Offset of column [col] of luma row [row], and of chroma row [row], the
    chroma plane starting at [pitch * height]. *)
Definition luma_offset (pitch row col : Z) : Z := row * pitch + col.

Definition chroma_offset (pitch height row col : Z) : Z :=
  pitch * height + row * pitch + col.

(** Index of the destination element the kernel uses for pixel
    ([col], [row]). *)
Definition dest_index (width row col : Z) : Z := row * width + col.

(** An access stays inside its buffer: a load inside the declared extent of
    the source, a store inside the elements of the destination. *)
Definition access_in_bounds (pitch width height : Z) (e : event) : bool :=
  match e with
  | Load off => (0 <=? off) && (off <? src_extent pitch height)
  | Store idx _ => (0 <=? idx) && (idx <? dest_extent width height)
  end.

(** ** Channels of a pixel *)

Inductive channel : Set :=
| ByteChannel (z : Z)
| FloatChannel (f : float).

Definition pixel_channels (p : pixel) : list channel :=
  match p with
  | Uchar3 x y z => [ByteChannel x; ByteChannel y; ByteChannel z]
  | Uchar4 x y z w => [ByteChannel x; ByteChannel y; ByteChannel z;
                       ByteChannel w]
  | Float3 x y z => [FloatChannel x; FloatChannel y; FloatChannel z]
  | Float4 x y z w => [FloatChannel x; FloatChannel y; FloatChannel z;
                       FloatChannel w]
  | Packed32 word => [ByteChannel (and32 (shr32 word 24) 255);
                      ByteChannel (and32 (shr32 word 16) 255);
                      ByteChannel (and32 (shr32 word 8) 255);
                      ByteChannel (and32 word 255)]
  end.

Definition pixel_alpha (p : pixel) : option channel :=
  nth_error (pixel_channels p) 3.

(** A channel value inside the range [0, 255]. *)
Definition channel_in_range (c : channel) : bool :=
  match c with
  | ByteChannel z => (0 <=? z) && (z <=? 255)
  | FloatChannel f => F32.leb (F32.of_Z 0) f && F32.leb f (F32.of_Z 255)
  end.

(** Full scale of a channel of a pixel type: the largest byte, and for the
    floating-point types the top of the range [0, 255] their channels are
    clamped to. *)
Definition full_scale (T : pixel_type) : channel :=
  match T with
  | uchar3 | uchar4 => ByteChannel (2 ^ 8 - 1)
  | float3 | float4 => FloatChannel (F32.of_Z 255)
  end.

(** A pixel without its alpha channel. *)
Definition drop_alpha (p : pixel) : pixel :=
  match p with
  | Uchar4 x y z _ => Uchar3 x y z
  | Float4 x y z _ => Float3 x y z
  | _ => p
  end.

(** The pixel type with the same channel representation and no alpha. *)
Definition without_alpha (T : pixel_type) : pixel_type :=
  match T with
  | uchar4 => uchar3
  | float4 => float3
  | _ => T
  end.

Definition drop_alpha_event (e : event) : event :=
  match e with
  | Load off => Load off
  | Store idx v => Store idx (drop_alpha v)
  end.

(** ** The colour transform as the specification words it *)

Module Spec.

(** [scale = 255/1024]. *)
Definition scale : float := F32.div (F32.of_Z 255) (F32.of_Z 1024).

(** [clamp(v, lo, hi)]. *)
Definition clamp (v lo hi : float) : float := F32.fminf (F32.fmaxf v lo) hi.

(** Cb and Cr centred on 0 by subtracting the mid-scale value 512 of the
    10-bit-scaled samples. *)
Definition centred (c : Z) : float := F32.sub (F32.of_Z c) (F32.of_Z 512).

(** R = clamp((Y + 1.140 Cr) scale, 0, 255) *)
Definition R (Y Cb Cr : Z) : float :=
  clamp (F32.mul (F32.add (F32.of_Z Y)
                          (F32.mul (F32.decimal 1140 3) (centred Cr)))
                 scale)
        (F32.of_Z 0) (F32.of_Z 255).

(** G = clamp((Y - 0.395 Cb - 0.581 Cr) scale, 0, 255) *)
Definition G (Y Cb Cr : Z) : float :=
  clamp (F32.mul (F32.sub (F32.sub (F32.of_Z Y)
                                   (F32.mul (F32.decimal 395 3) (centred Cb)))
                          (F32.mul (F32.decimal 581 3) (centred Cr)))
                 scale)
        (F32.of_Z 0) (F32.of_Z 255).

(** B = clamp((Y + 2.032 Cb) scale, 0, 255) *)
Definition B (Y Cb Cr : Z) : float :=
  clamp (F32.mul (F32.add (F32.of_Z Y)
                          (F32.mul (F32.decimal 2032 3) (centred Cb)))
                 scale)
        (F32.of_Z 0) (F32.of_Z 255).

End Spec.

(** How many stores of a log go to the destination element [idx]. *)
Definition stores_at (idx : Z) (l : list event) : nat :=
  count_occ Z.eq_dec (map fst (stores l)) idx.

(** The average of two samples, rounding half up. *)
Definition average_half_up (a b : Z) : Z := Z.shiftr (a + b + 1) 1.

(** The image can be addressed with the 32-bit offsets the kernel computes:
    none of its offset computations wraps around. *)
Definition addressable (pitch width height : Z) : Prop :=
  0 < width <= pitch /\ 0 < height /\ 2 * (pitch * height) < 2 ^ 32.

(** ** Auxiliary definitions of the statements *)

(** The unit of a launch in charge of pixel ([px], [py]): 64 columns and 8
    rows to a block, two columns to a unit. *)
Definition owner (px py : Z) : dim3 * dim3 :=
  (mk_dim3 (px / 64) (py / 8) 0, mk_dim3 (px mod 64 / 2) (py mod 8) 0).

(** A finite binary number [m * 2^e] that is at most 255. *)
Definition at_most_255 (m : positive) (e : Z) : Prop :=
  Z.pos m * 2 ^ (e - Z.min e (-16))
  <= 16711680 * 2 ^ (-16 - Z.min e (-16)).

(** A small source buffer for the examples: the byte at offset [off] is
    [off + 16], so that every sample tells where it was read. *)
Definition ramp (off : Z) : Z := off + 16.

Ltac by_computation :=
  vm_compute; repeat split; solve [ reflexivity | discriminate | lia ].

(** ** The converted image *)

(** The samples of the source image, [src] being the bytes of the source
    buffer. *)
Definition source_luma (src : Z -> Z) (pitch x y : Z) : Z :=
  u8 (src (luma_offset pitch y x)).

Definition source_chroma (src : Z -> Z) (pitch height row col : Z) : Z :=
  u8 (src (chroma_offset pitch height row col)).

(** The chroma byte the kernel arrives at for output row [y] from column
    [col] of the chroma plane: the stored byte of chroma row [y >> 1] on an
    even row and on the last chroma row, the rounded average with the next
    chroma row otherwise. *)
Definition reconstructed_chroma (src : Z -> Z) (pitch height y col : Z) : Z :=
  let r := Z.shiftr y 1 in
  if (Z.land y 1 =? 0) || negb (r <? height / 2 - 1)
  then source_chroma src pitch height r col
  else average_half_up (source_chroma src pitch height r col)
                       (source_chroma src pitch height (r + 1) col).

(** The pixel the kernel stores for (x, y), as a function of the pixel: its
    own luma and the chroma pair of its even/odd column pair. *)
Definition converted_pixel (T : pixel_type) (src : Z -> Z)
    (pitch height x y : Z) : pixel :=
  let x0 := x - x mod 2 in
  YUV2RGB T (make_uint3 (4 * source_luma src pitch x y)
                        (4 * reconstructed_chroma src pitch height y x0)
                        (4 * reconstructed_chroma src pitch height y (x0 + 1))).

(** The packed word of an opaque grey pixel of level [l]. *)
Definition grey_word (l : Z) : Z :=
  l * 2 ^ 24 + l * 2 ^ 16 + l * 2 ^ 8 + 255.

(** The byte pixel type with the channel count of [T], and a
    floating-point pixel with every channel replaced by its integer part. *)
Definition byte_type (T : pixel_type) : pixel_type :=
  match T with
  | float3 => uchar3
  | float4 => uchar4
  | _ => T
  end.

Definition quantize (p : pixel) : pixel :=
  match p with
  | Float3 x y z => Uchar3 (F32.trunc x) (F32.trunc y) (F32.trunc z)
  | Float4 x y z w =>
      Uchar4 (F32.trunc x) (F32.trunc y) (F32.trunc z) (F32.trunc w)
  | _ => p
  end.

Definition quantize_event (e : event) : event :=
  match e with
  | Load off => Load off
  | Store idx v => Store idx (quantize v)
  end.

(** The event is a store to element [idx]. *)
Definition stores_to (idx : Z) (e : event) : bool :=
  match e with
  | Store i _ => i =? idx
  | Load _ => false
  end.

(** A byte pixel of type [T] that is grey of level [g] (and opaque). *)
Definition is_grey_level (T : pixel_type) (g : Z) (p : pixel) : bool :=
  match T, p with
  | uchar3, Uchar3 x y z => (x =? g) && (y =? g) && (z =? g)
  | uchar4, Uchar4 x y z w => (x =? g) && (y =? g) && (z =? g) && (w =? 255)
  | _, _ => false
  end.

(** * Properties *)

(** ** Machine arithmetic *)

Section MachineArithmetic.

Lemma u32_range z : 0 <= u32 z < 2 ^ 32.
Proof. unfold u32. apply Z.mod_pos_bound. lia. Qed.

Lemma u32_small z : 0 <= z < 2 ^ 32 -> u32 z = z.
Proof. intros H. unfold u32. apply Z.mod_small. exact H. Qed.

Lemma u32_idemp z : u32 (u32 z) = u32 z.
Proof. unfold u32. apply Z.mod_mod. lia. Qed.

Lemma u8_range z : 0 <= u8 z < 256.
Proof. unfold u8. change (2 ^ 8) with 256. apply Z.mod_pos_bound. lia. Qed.

Lemma u8_small z : 0 <= z < 256 -> u8 z = z.
Proof. intros H. unfold u8. apply Z.mod_small. exact H. Qed.

Lemma u32_to_int z : u32 (to_int z) = u32 z.
Proof.
  unfold to_int. pose proof (u32_range z) as R.
  destruct (u32 z <? 2 ^ 31).
  - apply u32_idemp.
  - unfold u32 at 1. rewrite Zminus_mod, Z.mod_same, Z.sub_0_r by lia.
    rewrite Z.mod_mod by lia. apply u32_idemp.
Qed.

Lemma to_int_small z : 0 <= z < 2 ^ 31 -> to_int z = z.
Proof.
  intros H. unfold to_int. rewrite u32_small by lia.
  destruct (Z.ltb_spec z (2 ^ 31)); lia.
Qed.

Lemma add32_small a b : 0 <= a + b < 2 ^ 32 -> add32 a b = a + b.
Proof. apply u32_small. Qed.

Lemma mul32_small a b : 0 <= a * b < 2 ^ 32 -> mul32 a b = a * b.
Proof. apply u32_small. Qed.

Lemma shl32_1 a : 0 <= 2 * a < 2 ^ 32 -> shl32 a 1 = 2 * a.
Proof.
  intros H. unfold shl32. rewrite Z.shiftl_mul_pow2 by lia.
  rewrite u32_small; lia.
Qed.

(** The three fields of a packed pixel word are the luma and the two chroma
    bytes, each on the 10-bit scale (shifted left by two). *)
Lemma unpack_yuv_packed a b c :
  unpack_yuv
    (or32 (or32 (shl32 (u8 a) 2)
                (shl32 (u8 b) (COLOR_COMPONENT_BIT_SIZE + 2)))
          (shl32 (u8 c) (Z.shiftl COLOR_COMPONENT_BIT_SIZE 1 + 2)))
  = make_uint3 (4 * u8 a) (4 * u8 b) (4 * u8 c).
Proof.
  unfold unpack_yuv, or32, and32, shr32, shl32, u32, u8,
    COLOR_COMPONENT_MASK, COLOR_COMPONENT_BIT_SIZE.
  change (Z.shiftl 10 1) with 20. change (10 + 2) with 12.
  change (20 + 2) with 22.
  change (1023 mod 2 ^ 32) with (Z.ones 10).
  replace (4 * (a mod 2 ^ 8)) with (Z.shiftl (a mod 2 ^ 8) 2)
    by (rewrite Z.shiftl_mul_pow2; lia).
  replace (4 * (b mod 2 ^ 8)) with (Z.shiftl (b mod 2 ^ 8) 2)
    by (rewrite Z.shiftl_mul_pow2; lia).
  replace (4 * (c mod 2 ^ 8)) with (Z.shiftl (c mod 2 ^ 8) 2)
    by (rewrite Z.shiftl_mul_pow2; lia).
  f_equal; Z.bitblast;
    repeat match goal with
           | |- context [Z.testbit ?v ?k] =>
               rewrite (Z.testbit_neg_r v k) by lia
           end;
    cbn [andb orb]; rewrite ?Bool.andb_true_r, ?Bool.orb_false_r;
    reflexivity.
Qed.

End MachineArithmetic.

(** ** One unit of work *)

Section UnitOfWork.

Variable T : pixel_type.
Variables blockIdx blockDim threadIdx : dim3.
Variable srcImageU8 : Z -> Z.
Variables nSourcePitch nDestPitch width height : Z.

Let x := thread_x blockIdx blockDim threadIdx.
Let y := thread_y blockIdx blockDim threadIdx.

Let work := NV12ToRGBA T blockIdx blockDim threadIdx srcImageU8
                       nSourcePitch nDestPitch width height.

Let luma (col : Z) : Z := u8 (srcImageU8 (luma_offset nSourcePitch y col)).
Let chroma (row col : Z) : Z :=
  u8 (srcImageU8 (chroma_offset nSourcePitch height row col)).

(** A unit whose left column or whose row is outside the image returns at
    once. *)
Lemma NV12ToRGBA_outside :
  width <= u32 x \/ height <= u32 y -> work = (tt, []).
Proof.
  intros H. unfold work, NV12ToRGBA. fold x y.
  destruct (Z.geb_spec (u32 x) width) as [Hx | Hx]; [reflexivity | ].
  destruct (Z.geb_spec (u32 y) height) as [Hy | Hy]; [reflexivity | ].
  lia.
Qed.

Hypothesis Haddr : addressable nSourcePitch width height.
Hypothesis Hx : 0 <= x < width.
Hypothesis Hy : 0 <= y < height.

Local Lemma pitch_fits : u32 nSourcePitch = nSourcePitch.
Proof. destruct Haddr as (? & ? & ?). apply u32_small. nia. Qed.

Local Lemma row_bound r :
  0 <= r < height -> 0 <= r * nSourcePitch /\
  r * nSourcePitch + nSourcePitch <= nSourcePitch * height.
Proof. destruct Haddr as (? & ? & ?). intros. nia. Qed.

Local Lemma kernel_luma_offset :
  add32 (mul32 y nSourcePitch) x = luma_offset nSourcePitch y x
  /\ add32 (add32 (mul32 y nSourcePitch) x) 1
     = luma_offset nSourcePitch y (x + 1).
Proof.
  destruct Haddr as (? & ? & ?). pose proof (row_bound y Hy).
  unfold add32, mul32, luma_offset.
  rewrite (u32_small (y * nSourcePitch)) by lia.
  rewrite (u32_small (y * nSourcePitch + x)) by lia.
  rewrite u32_small by lia. split; lia.
Qed.

Local Lemma kernel_chroma_offset r :
  0 <= r < height ->
  add32 (add32 (mul32 nSourcePitch height) (mul32 r nSourcePitch)) x
  = chroma_offset nSourcePitch height r x
  /\ add32 (add32 (add32 (mul32 nSourcePitch height)
                         (mul32 r nSourcePitch)) x) 1
     = chroma_offset nSourcePitch height r (x + 1).
Proof.
  intros Hr. destruct Haddr as (? & ? & ?). pose proof (row_bound r Hr).
  unfold add32, mul32, chroma_offset.
  rewrite (u32_small (nSourcePitch * height)) by lia.
  rewrite (u32_small (r * nSourcePitch)) by lia.
  rewrite (u32_small (nSourcePitch * height + r * nSourcePitch)) by lia.
  rewrite (u32_small (_ + x)) by lia.
  rewrite u32_small by lia. split; lia.
Qed.

Local Lemma kernel_dest_index :
  add32 (mul32 y width) x = dest_index width y x
  /\ add32 (add32 (mul32 y width) x) 1 = dest_index width y (x + 1).
Proof.
  destruct Haddr as (? & ? & ?).
  assert (0 <= y * width /\ y * width + width <= width * height) by nia.
  assert (width * height <= nSourcePitch * height) by nia.
  unfold add32, mul32, dest_index.
  rewrite (u32_small (y * width)) by lia.
  rewrite (u32_small (y * width + x)) by lia.
  rewrite u32_small by lia. split; lia.
Qed.

Local Lemma y_chroma_bound :
  0 <= Z.shiftr y 1 < height /\ 2 * Z.shiftr y 1 <= y.
Proof.
  rewrite Z.shiftr_div_pow2 by lia. change (2 ^ 1) with 2.
  pose proof (Z.div_mod y 2 ltac:(lia)).
  pose proof (Z.mod_pos_bound y 2 ltac:(lia)). lia.
Qed.

Local Lemma in_bounds_tests :
  (u32 x >=? width) = false /\ (u32 y >=? height) = false.
Proof.
  destruct Haddr as (? & ? & ?).
  rewrite !u32_small by nia.
  split; [ destruct (Z.geb_spec x width) | destruct (Z.geb_spec y height) ];
    solve [ reflexivity | lia ].
Qed.

(** An even row: both pixels take the chroma pair of chroma row [y >> 1]
    as it is stored. *)
Lemma NV12ToRGBA_even_row :
  Z.land y 1 = 0 ->
  work =
  (tt,
   [Load (luma_offset nSourcePitch y x);
    Load (luma_offset nSourcePitch y (x + 1));
    Load (chroma_offset nSourcePitch height (Z.shiftr y 1) x);
    Load (chroma_offset nSourcePitch height (Z.shiftr y 1) (x + 1));
    Load (chroma_offset nSourcePitch height (Z.shiftr y 1) x);
    Load (chroma_offset nSourcePitch height (Z.shiftr y 1) (x + 1));
    Store (dest_index width y x)
      (YUV2RGB T (make_uint3 (4 * luma x)
                             (4 * chroma (Z.shiftr y 1) x)
                             (4 * chroma (Z.shiftr y 1) (x + 1))));
    Store (dest_index width y (x + 1))
      (YUV2RGB T (make_uint3 (4 * luma (x + 1))
                             (4 * chroma (Z.shiftr y 1) x)
                             (4 * chroma (Z.shiftr y 1) (x + 1))))]).
Proof.
  intros Heven. unfold work, NV12ToRGBA. fold x y.
  destruct in_bounds_tests as [-> ->]. rewrite pitch_fits, Heven.
  destruct kernel_luma_offset as [-> ->].
  destruct (kernel_chroma_offset (Z.shiftr y 1)) as [-> ->];
    [ apply y_chroma_bound | ].
  destruct kernel_dest_index as [-> ->].
  cbn [Z.eqb negb]. unfold bind, ret, load, store. cbn [fst snd app].
  rewrite !unpack_yuv_packed. reflexivity.
Qed.

Local Lemma average_half_up_byte a b :
  shr32 (add32 (add32 (u8 a) (u8 b)) 1) 1 = average_half_up (u8 a) (u8 b)
  /\ u8 (average_half_up (u8 a) (u8 b)) = average_half_up (u8 a) (u8 b).
Proof.
  pose proof (u8_range a). pose proof (u8_range b).
  unfold shr32, add32, average_half_up.
  rewrite (u32_small (u8 a + u8 b)) by lia.
  rewrite u32_idemp, u32_small by lia. split; [ reflexivity | ].
  apply u8_small. rewrite Z.shiftr_div_pow2 by lia. change (2 ^ 1) with 2.
  split; [ apply Z.div_pos; lia | apply Z.div_lt_upper_bound; lia ].
Qed.

Local Lemma interpolation_test :
  Z.land y 1 = 1 ->
  (u32 (Z.shiftr y 1) <? sub32 (shr32 height 1) 1)
  = (Z.shiftr y 1 <? height / 2 - 1).
Proof.
  intros Hodd. destruct Haddr as (? & ? & ?).
  pose proof y_chroma_bound as [Hr Hr'].
  assert (y <> 0) by (intros E; rewrite E in Hodd; discriminate).
  assert (1 <= height / 2) by (apply Z.div_le_lower_bound; lia).
  assert (height / 2 <= height)
    by (apply Z.div_le_upper_bound; lia).
  unfold sub32, shr32. rewrite (u32_small height) by nia.
  rewrite (Z.shiftr_div_pow2 height) by lia. change (2 ^ 1) with 2.
  rewrite !u32_small by nia. reflexivity.
Qed.

(** An odd row: the chroma pair of chroma row [y >> 1] is averaged with
    that of the next chroma row when there is one below the last
    ([y >> 1 < height / 2 - 1]); otherwise it is used as it is stored and
    the next row is not read. *)
Lemma NV12ToRGBA_odd_row :
  Z.land y 1 = 1 ->
  let r := Z.shiftr y 1 in
  let interpolate := r <? height / 2 - 1 in
  let Cb := if interpolate
            then average_half_up (chroma r x) (chroma (r + 1) x)
            else chroma r x in
  let Cr := if interpolate
            then average_half_up (chroma r (x + 1)) (chroma (r + 1) (x + 1))
            else chroma r (x + 1) in
  work =
  (tt,
   [Load (luma_offset nSourcePitch y x);
    Load (luma_offset nSourcePitch y (x + 1));
    Load (chroma_offset nSourcePitch height r x);
    Load (chroma_offset nSourcePitch height r (x + 1))]
   ++ (if interpolate
       then [Load (chroma_offset nSourcePitch height (r + 1) x);
             Load (chroma_offset nSourcePitch height (r + 1) (x + 1))]
       else [])
   ++ [Store (dest_index width y x)
         (YUV2RGB T (make_uint3 (4 * luma x) (4 * Cb) (4 * Cr)));
       Store (dest_index width y (x + 1))
         (YUV2RGB T (make_uint3 (4 * luma (x + 1)) (4 * Cb) (4 * Cr)))]).
Proof.
  intros Hodd r interpolate Cb Cr. unfold work, NV12ToRGBA. fold x y.
  destruct in_bounds_tests as [-> ->]. rewrite pitch_fits, Hodd.
  rewrite interpolation_test by exact Hodd. fold r. fold interpolate.
  destruct kernel_luma_offset as [-> ->].
  destruct (kernel_chroma_offset r) as [-> ->];
    [ apply y_chroma_bound | ].
  destruct kernel_dest_index as [-> ->].
  cbn [Z.eqb negb]. subst Cb Cr.
  destruct interpolate eqn:Hi.
  - assert (Hr : 0 <= r + 1 < height).
    { pose proof y_chroma_bound as [Hr _]. fold r in Hr.
      apply Z.ltb_lt in Hi.
      assert (height / 2 <= height)
        by (apply Z.div_le_upper_bound; lia).
      lia. }
    destruct (kernel_chroma_offset (r + 1) Hr) as [-> ->].
    unfold bind, ret, load, store. cbn [fst snd app].
    fold (chroma r x) (chroma r (x + 1))
         (chroma (r + 1) x) (chroma (r + 1) (x + 1)).
    unfold chroma.
    destruct (average_half_up_byte
                (srcImageU8 (chroma_offset nSourcePitch height r x))
                (srcImageU8 (chroma_offset nSourcePitch height (r + 1) x)))
      as [-> <-].
    destruct (average_half_up_byte
                (srcImageU8 (chroma_offset nSourcePitch height r (x + 1)))
                (srcImageU8
                   (chroma_offset nSourcePitch height (r + 1) (x + 1))))
      as [-> <-].
    rewrite !unpack_yuv_packed. reflexivity.
  - unfold bind, ret, load, store. cbn [fst snd app].
    rewrite !unpack_yuv_packed. reflexivity.
Qed.

End UnitOfWork.

(** ** Chroma reconstruction *)



(** C6. On an even output row [y] the chroma pair of both pixels of a unit,
    (x, y) and (x+1, y), is the pair of bytes stored in the chroma plane at
    row [y >> 1], columns [x] and [x + 1], with no averaging; the chroma
    plane starts at offset [pitch * height] of the source buffer
    ([chroma_offset]).  The samples reach [YUV2RGB] on the 10-bit scale, that
    is multiplied by 4, as the luma does. *)
Theorem even_row_chroma_is_raw
    (T : pixel_type) (blockIdx blockDim threadIdx : dim3)
    (srcImageU8 : Z -> Z) (nSourcePitch nDestPitch width height : Z) :
  let x := thread_x blockIdx blockDim threadIdx in
  let y := thread_y blockIdx blockDim threadIdx in
  let Cb := u8 (srcImageU8 (nSourcePitch * height
                            + Z.shiftr y 1 * nSourcePitch + x)) in
  let Cr := u8 (srcImageU8 (nSourcePitch * height
                            + Z.shiftr y 1 * nSourcePitch + (x + 1))) in
  let luma col := u8 (srcImageU8 (y * nSourcePitch + col)) in
  addressable nSourcePitch width height ->
  0 <= x < width -> 0 <= y < height ->
  Z.land y 1 = 0 ->
  stores (snd (NV12ToRGBA T blockIdx blockDim threadIdx srcImageU8
                          nSourcePitch nDestPitch width height))
  = [(y * width + x,
      YUV2RGB T (make_uint3 (4 * luma x) (4 * Cb) (4 * Cr)));
     (y * width + (x + 1),
      YUV2RGB T (make_uint3 (4 * luma (x + 1)) (4 * Cb) (4 * Cr)))]
  /\ loads (snd (NV12ToRGBA T blockIdx blockDim threadIdx srcImageU8
                            nSourcePitch nDestPitch width height))
     = [y * nSourcePitch + x; y * nSourcePitch + (x + 1);
        nSourcePitch * height + Z.shiftr y 1 * nSourcePitch + x;
        nSourcePitch * height + Z.shiftr y 1 * nSourcePitch + (x + 1);
        nSourcePitch * height + Z.shiftr y 1 * nSourcePitch + x;
        nSourcePitch * height + Z.shiftr y 1 * nSourcePitch + (x + 1)].
Proof.
  intros x y Cb Cr luma Haddr Hx Hy Heven.
  rewrite (NV12ToRGBA_even_row T blockIdx blockDim threadIdx srcImageU8
             nSourcePitch nDestPitch width height Haddr Hx Hy Heven).
  split; reflexivity.
Qed.

Lemma even_row_chroma_is_raw_example :
  stores (snd (NV12ToRGBA uchar4 (mk_dim3 0 0 0) (mk_dim3 32 8 1)
                          (mk_dim3 1 2 0) ramp 8 16 4 4))
  = [(10, YUV2RGB uchar4 (make_uint3 (4 * 34) (4 * 58) (4 * 59)));
     (11, YUV2RGB uchar4 (make_uint3 (4 * 35) (4 * 58) (4 * 59)))]
  /\ loads (snd (NV12ToRGBA uchar4 (mk_dim3 0 0 0) (mk_dim3 32 8 1)
                            (mk_dim3 1 2 0) ramp 8 16 4 4))
     = [18; 19; 42; 43; 42; 43].
Proof.
  apply (even_row_chroma_is_raw uchar4 (mk_dim3 0 0 0) (mk_dim3 32 8 1)
           (mk_dim3 1 2 0) ramp 8 16 4 4).
  - unfold addressable. lia.
  - by_computation.
  - by_computation.
  - reflexivity.
Defined.

(** C5. On an odd output row [y], with [r = y >> 1]: when
    [r < height / 2 - 1] the chroma pair of the unit is the average, rounded
    half up, of the pairs stored in chroma rows [r] and [r + 1]; otherwise
    [r] is the last chroma row, its pair is used as it is stored and no
    byte of a row [r + 1] is read. *)
Theorem odd_row_chroma_interpolation
    (T : pixel_type) (blockIdx blockDim threadIdx : dim3)
    (srcImageU8 : Z -> Z) (nSourcePitch nDestPitch width height : Z) :
  let x := thread_x blockIdx blockDim threadIdx in
  let y := thread_y blockIdx blockDim threadIdx in
  let r := Z.shiftr y 1 in
  let chroma row col :=
    u8 (srcImageU8 (nSourcePitch * height + row * nSourcePitch + col)) in
  let luma col := u8 (srcImageU8 (y * nSourcePitch + col)) in
  let work := snd (NV12ToRGBA T blockIdx blockDim threadIdx srcImageU8
                              nSourcePitch nDestPitch width height) in
  addressable nSourcePitch width height ->
  0 <= x < width -> 0 <= y < height ->
  Z.land y 1 = 1 ->
  (r < height / 2 - 1 ->
   let Cb := Z.shiftr (chroma r x + chroma (r + 1) x + 1) 1 in
   let Cr := Z.shiftr (chroma r (x + 1) + chroma (r + 1) (x + 1) + 1) 1 in
   stores work
   = [(y * width + x,
       YUV2RGB T (make_uint3 (4 * luma x) (4 * Cb) (4 * Cr)));
      (y * width + (x + 1),
       YUV2RGB T (make_uint3 (4 * luma (x + 1)) (4 * Cb) (4 * Cr)))])
  /\ (height / 2 - 1 <= r ->
      stores work
      = [(y * width + x,
          YUV2RGB T (make_uint3 (4 * luma x) (4 * chroma r x)
                                (4 * chroma r (x + 1))));
         (y * width + (x + 1),
          YUV2RGB T (make_uint3 (4 * luma (x + 1)) (4 * chroma r x)
                                (4 * chroma r (x + 1))))]
      /\ loads work
         = [y * nSourcePitch + x; y * nSourcePitch + (x + 1);
            nSourcePitch * height + r * nSourcePitch + x;
            nSourcePitch * height + r * nSourcePitch + (x + 1)]).
Proof.
  intros x y r chroma luma work Haddr Hx Hy Hodd. subst work.
  rewrite (NV12ToRGBA_odd_row T blockIdx blockDim threadIdx srcImageU8
             nSourcePitch nDestPitch width height Haddr Hx Hy Hodd).
  fold x y r. split.
  - intros Hr. apply Z.ltb_lt in Hr. rewrite Hr. reflexivity.
  - intros Hr. apply Z.ltb_ge in Hr. rewrite Hr. split; reflexivity.
Qed.

Lemma odd_row_chroma_interpolation_example :
  (* row 1 of a 4x6 image: chroma rows 0 and 1 are averaged *)
  stores (snd (NV12ToRGBA uchar4 (mk_dim3 0 0 0) (mk_dim3 32 8 1)
                          (mk_dim3 1 1 0) ramp 8 16 4 6))
  = [(6, YUV2RGB uchar4 (make_uint3 (4 * 26) (4 * 70) (4 * 71)));
     (7, YUV2RGB uchar4 (make_uint3 (4 * 27) (4 * 70) (4 * 71)))]
  (* row 5, the last one: chroma row 2 is the last and is used alone *)
  /\ stores (snd (NV12ToRGBA uchar4 (mk_dim3 0 0 0) (mk_dim3 32 8 1)
                             (mk_dim3 1 5 0) ramp 8 16 4 6))
     = [(22, YUV2RGB uchar4 (make_uint3 (4 * 58) (4 * 82) (4 * 83)));
        (23, YUV2RGB uchar4 (make_uint3 (4 * 59) (4 * 82) (4 * 83)))]
  /\ loads (snd (NV12ToRGBA uchar4 (mk_dim3 0 0 0) (mk_dim3 32 8 1)
                            (mk_dim3 1 5 0) ramp 8 16 4 6))
     = [42; 43; 66; 67].
Proof.
  split.
  - apply (odd_row_chroma_interpolation uchar4 (mk_dim3 0 0 0)
             (mk_dim3 32 8 1) (mk_dim3 1 1 0) ramp 8 16 4 6);
      [ unfold addressable; lia | by_computation | by_computation
      | reflexivity | by_computation ].
  - apply (odd_row_chroma_interpolation uchar4 (mk_dim3 0 0 0)
             (mk_dim3 32 8 1) (mk_dim3 1 5 0) ramp 8 16 4 6);
      [ unfold addressable; lia | by_computation | by_computation
      | reflexivity | by_computation ].
Defined.

(** ** Memory safety of a unit of work *)

Lemma u32_even z : Z.even z = true -> Z.even (u32 z) = true.
Proof.
  intros H. unfold u32. rewrite Z.mod_eq by lia.
  rewrite Z.even_sub, H, Z.even_mul. reflexivity.
Qed.

Lemma to_int_even z : Z.even z = true -> Z.even (to_int z) = true.
Proof.
  intros H. unfold to_int. apply u32_even in H.
  destruct (u32 z <? 2 ^ 31); [ exact H | ].
  rewrite Z.even_sub, H. reflexivity.
Qed.

(** The left column of a unit is even, whatever its indices. *)
Lemma thread_x_even blockIdx blockDim threadIdx :
  Z.even (thread_x blockIdx blockDim threadIdx) = true.
Proof.
  unfold thread_x, add32, mul32, shl32.
  apply to_int_even, u32_even.
  rewrite Z.even_add, u32_even, u32_even; [ reflexivity | | ].
  - rewrite Z.shiftl_mul_pow2, Z.even_mul by lia.
    apply Bool.orb_true_r.
  - rewrite Z.even_mul, (u32_even (Z.shiftl _ 1)); [ apply Bool.orb_true_r | ].
    rewrite Z.shiftl_mul_pow2, Z.even_mul by lia.
    apply Bool.orb_true_r.
Qed.

(** A coordinate that passes the kernel's unsigned test against an extent
    below [2^31] is a non-negative [int]. *)
Lemma to_int_below z bound :
  bound <= 2 ^ 31 -> u32 (to_int z) < bound -> 0 <= to_int z < bound.
Proof.
  intros Hb. rewrite u32_to_int. unfold to_int.
  pose proof (u32_range z).
  destruct (Z.ltb_spec (u32 z) (2 ^ 31)); lia.
Qed.

Lemma addressable_extents pitch width height :
  addressable pitch width height ->
  width < 2 ^ 31 /\ height < 2 ^ 31 /\ pitch < 2 ^ 31.
Proof. unfold addressable. intros (? & ? & ?). nia. Qed.

Lemma load_in_bounds pitch width height off :
  0 <= off < src_extent pitch height ->
  access_in_bounds pitch width height (Load off) = true.
Proof.
  intros [H1 H2]. cbn. apply Bool.andb_true_iff.
  split; [ apply Z.leb_le | apply Z.ltb_lt ]; assumption.
Qed.

Lemma store_in_bounds pitch width height idx v :
  0 <= idx < dest_extent width height ->
  access_in_bounds pitch width height (Store idx v) = true.
Proof.
  intros [H1 H2]. cbn. apply Bool.andb_true_iff.
  split; [ apply Z.leb_le | apply Z.ltb_lt ]; assumption.
Qed.

Lemma land_1_cases y : Z.land y 1 = 0 \/ Z.land y 1 = 1.
Proof.
  change (Z.land y 1) with (Z.land y (Z.ones 1)).
  rewrite Z.land_ones by lia. change (2 ^ 1) with 2.
  pose proof (Z.mod_pos_bound y 2). lia.
Qed.

(** C1 (as the code has it). For an even width and an even height, whether
    or not they are multiples of the block extents, a unit of work tests its
    left column [x] against [width] and its row [y] against [height] and
    touches no memory when [x >= width] or [y >= height]; otherwise all its
    loads are inside the declared extent of the source buffer and its two
    stores, at columns [x] and [x + 1] of row [y], are inside the
    [width * height] elements of the destination. *)
Theorem unit_accesses_in_bounds
    (T : pixel_type) (blockIdx blockDim threadIdx : dim3)
    (srcImageU8 : Z -> Z) (nSourcePitch nDestPitch width height : Z) :
  let x := thread_x blockIdx blockDim threadIdx in
  let y := thread_y blockIdx blockDim threadIdx in
  let work := snd (NV12ToRGBA T blockIdx blockDim threadIdx srcImageU8
                              nSourcePitch nDestPitch width height) in
  addressable nSourcePitch width height ->
  Z.even width = true -> Z.even height = true ->
  (width <= u32 x \/ height <= u32 y -> work = [])
  /\ forallb (access_in_bounds nSourcePitch width height) work = true.
Proof.
  intros x y work Haddr Hw Hh. subst work. split.
  - intros Hout.
    rewrite (NV12ToRGBA_outside T blockIdx blockDim threadIdx srcImageU8
               nSourcePitch nDestPitch width height Hout).
    reflexivity.
  - destruct (Z.le_gt_cases width (u32 x)) as [Hox | Hix];
      [ rewrite NV12ToRGBA_outside by (left; exact Hox); reflexivity | ].
    destruct (Z.le_gt_cases height (u32 y)) as [Hoy | Hiy];
      [ rewrite NV12ToRGBA_outside by (right; exact Hoy); reflexivity | ].
    destruct (addressable_extents _ _ _ Haddr) as (Hw31 & Hh31 & Hp31).
    assert (Hx : 0 <= x < width)
      by (apply to_int_below; [ lia | exact Hix ]).
    assert (Hy : 0 <= y < height)
      by (apply to_int_below; [ lia | exact Hiy ]).
    pose proof (thread_x_even blockIdx blockDim threadIdx) as Hxe.
    fold x in Hxe.
    apply Z.even_spec in Hxe. destruct Hxe as [i Hi].
    apply Z.even_spec in Hw. destruct Hw as [j Hj].
    apply Z.even_spec in Hh. destruct Hh as [k Hk].
    assert (Hhalf : height / 2 = k)
      by (subst height; rewrite Z.mul_comm; apply Z.div_mul; lia).
    assert (Hr : 0 <= Z.shiftr y 1 < k).
    { rewrite Z.shiftr_div_pow2 by lia. change (2 ^ 1) with 2.
      split; [ apply Z.div_pos; lia | apply Z.div_lt_upper_bound; lia ]. }
    destruct Haddr as (Hwp & Hh0 & Hfit).
    assert (Hrow : forall r, 0 <= r < height ->
              0 <= r * nSourcePitch
              /\ r * nSourcePitch + nSourcePitch <= nSourcePitch * height)
      by (intros; nia).
    assert (Hcrow : forall r, 0 <= r < k ->
              0 <= r * nSourcePitch
              /\ r * nSourcePitch + nSourcePitch <= nSourcePitch * k)
      by (intros; nia).
    assert (Hdst : 0 <= y * width
                   /\ y * width + width <= width * height) by nia.
    pose proof (Hrow y Hy) as Hly.
    pose proof (Hcrow (Z.shiftr y 1) Hr) as Hcy.
    assert (Haddr : addressable nSourcePitch width height)
      by (unfold addressable; lia).
    destruct (land_1_cases y) as [Heven | Hodd].
    + rewrite (NV12ToRGBA_even_row T blockIdx blockDim threadIdx srcImageU8
                 nSourcePitch nDestPitch width height Haddr Hx Hy Heven).
      fold x y. cbn [snd forallb].
      rewrite !load_in_bounds, !store_in_bounds; [ reflexivity | .. ];
        unfold dest_extent, dest_index, src_extent, luma_offset,
          chroma_offset; rewrite ?Hhalf; lia.
    + rewrite (NV12ToRGBA_odd_row T blockIdx blockDim threadIdx srcImageU8
                 nSourcePitch nDestPitch width height Haddr Hx Hy Hodd).
      fold x y. rewrite Hhalf.
      destruct (Z.ltb_spec (Z.shiftr y 1) (k - 1)) as [Hint | Hlast].
      * pose proof (Hcrow (Z.shiftr y 1 + 1) ltac:(lia)) as Hcn.
        cbn [snd forallb app].
        rewrite !load_in_bounds, !store_in_bounds; [ reflexivity | .. ];
          unfold dest_extent, dest_index, src_extent, luma_offset,
            chroma_offset; rewrite ?Hhalf; lia.
      * cbn [snd forallb app].
        rewrite !load_in_bounds, !store_in_bounds; [ reflexivity | .. ];
          unfold dest_extent, dest_index, src_extent, luma_offset,
            chroma_offset; rewrite ?Hhalf; lia.
Qed.

Lemma unit_accesses_in_bounds_example :
  (* the unit of the last two pixels of a 6x6 image *)
  (6 <= u32 (thread_x (mk_dim3 0 0 0) (mk_dim3 32 8 1) (mk_dim3 2 5 0))
   \/ 6 <= u32 (thread_y (mk_dim3 0 0 0) (mk_dim3 32 8 1) (mk_dim3 2 5 0)) ->
   snd (NV12ToRGBA uchar4 (mk_dim3 0 0 0) (mk_dim3 32 8 1) (mk_dim3 2 5 0)
                   ramp 8 24 6 6) = [])
  /\ forallb (access_in_bounds 8 6 6)
       (snd (NV12ToRGBA uchar4 (mk_dim3 0 0 0) (mk_dim3 32 8 1)
                        (mk_dim3 2 5 0) ramp 8 24 6 6)) = true.
Proof.
  apply (unit_accesses_in_bounds uchar4 (mk_dim3 0 0 0) (mk_dim3 32 8 1)
           (mk_dim3 2 5 0) ramp 8 24 6 6).
  - unfold addressable. lia.
  - reflexivity.
  - reflexivity.
Defined.

(** C1 does not hold for an odd width: only the left column of a unit is
    tested.  In a 3x2 image the unit of column 2 and row 1 also stores its
    right pixel, at column 3 = [width]: element 6 of a destination of 6
    elements.  The launch as a whole therefore leaves the buffer. *)
Lemma odd_width_store_out_of_bounds :
  map fst (stores (snd (NV12ToRGBA uchar4 (mk_dim3 0 0 0) launch_blockDim
                                   (mk_dim3 1 1 0) ramp 4 12 3 2)))
  = [5; 6]
  /\ dest_extent 3 2 = 6
  /\ forallb (access_in_bounds 4 3 2)
       (snd (launchNV12ToRGBA uchar4 ramp cudaSuccess 1 4 1 12 3 2)) = false.
Proof. vm_compute. repeat split. Qed.

(** ** Destination addressing *)

(** C2 fails on the code: the kernel receives the destination pitch and
    never uses it; the row of a pixel is found with [width].  With a
    destination pitch of 32 bytes and 4-byte elements, the rows of the
    destination are 8 elements apart, yet pixel (0, 1) of a 2x2 image is
    stored at element 2, that is at byte 8 and not at byte 32, where
    [Passthru] stores its pixel (0, 1) at element 8; and no choice of the
    pitch changes what a unit of [NV12ToRGBA] does. *)
Theorem dest_pitch_is_ignored :
  map fst (stores (snd (launchNV12ToRGBA uchar4 ramp cudaSuccess
                                         1 2 1 32 2 2)))
  = [0; 1; 2; 3]
  /\ 2 * sizeof uchar4 = 8
  /\ 1 * 32 + 0 * sizeof uchar4 = 32
  /\ map fst (stores (snd (Passthru (mk_dim3 0 0 0) launch_blockDim
                                    (mk_dim3 0 1 0) ramp 2 32 2 2)))
     = [8; 9]
  /\ forall T blockIdx blockDim threadIdx srcImageU8 nSourcePitch
            width height nDestPitch nDestPitch',
       NV12ToRGBA T blockIdx blockDim threadIdx srcImageU8 nSourcePitch
                  nDestPitch width height
       = NV12ToRGBA T blockIdx blockDim threadIdx srcImageU8 nSourcePitch
                    nDestPitch' width height.
Proof. repeat split; vm_compute; reflexivity. Qed.

(** ** Validation *)

(** C3. A null source or destination pointer gives the invalid-pointer
    error; with both pointers valid, a zero pitch, width or height gives the
    invalid-value error.  In either case the call returns with an empty
    access log: no unit of work was run, nothing was loaded from the source
    and the destination buffer is as it was. *)
Theorem launch_validation
    (T : pixel_type) (mem : Z -> Z) (lastError : cudaError_t)
    (srcDev srcPitch destDev destPitch width height : Z)
    (dest : dest_buffer) :
  let call := launchNV12ToRGBA T mem lastError srcDev srcPitch destDev
                               destPitch width height in
  (srcDev = 0 \/ destDev = 0 ->
   call = (cudaErrorInvalidDevicePointer, [])
   /\ apply_events dest (snd call) = dest)
  /\ (srcDev <> 0 -> destDev <> 0 ->
      srcPitch = 0 \/ destPitch = 0 \/ width = 0 \/ height = 0 ->
      call = (cudaErrorInvalidValue, [])
      /\ apply_events dest (snd call) = dest).
Proof.
  intros call. subst call. unfold launchNV12ToRGBA. split.
  - intros Hnull.
    assert ((srcDev =? 0) || (destDev =? 0) = true) as ->.
    { apply Bool.orb_true_iff. rewrite !Z.eqb_eq. exact Hnull. }
    split; reflexivity.
  - intros Hs Hd Hzero.
    apply Z.eqb_neq in Hs, Hd. rewrite Hs, Hd. cbn [orb].
    assert ((srcPitch =? 0) || (destPitch =? 0) || (width =? 0)
            || (height =? 0) = true) as ->.
    { rewrite !Bool.orb_true_iff, !Z.eqb_eq. tauto. }
    split; reflexivity.
Qed.

Lemma launch_validation_example :
  (launchNV12ToRGBA uchar4 ramp cudaSuccess 0 4 1 16 4 2
   = (cudaErrorInvalidDevicePointer, [])
   /\ apply_events (fun _ => None)
        (snd (launchNV12ToRGBA uchar4 ramp cudaSuccess 0 4 1 16 4 2))
      = (fun _ => None))
  /\ (launchNV12ToRGBA uchar4 ramp cudaSuccess 1 4 1 16 4 0
      = (cudaErrorInvalidValue, [])
      /\ apply_events (fun _ => None)
           (snd (launchNV12ToRGBA uchar4 ramp cudaSuccess 1 4 1 16 4 0))
         = (fun _ => None)).
Proof.
  split.
  - apply (launch_validation uchar4 ramp cudaSuccess 0 4 1 16 4 2
             (fun _ => None)).
    left. reflexivity.
  - apply (launch_validation uchar4 ramp cudaSuccess 1 4 1 16 4 0
             (fun _ => None)).
    + discriminate.
    + discriminate.
    + right. right. right. reflexivity.
Defined.

(** ** The execution grid *)

(** [iDivUp] is the ceiling of the quotient. *)
Lemma iDivUp_ceiling a b :
  0 < b -> b * (iDivUp a b - 1) < a <= b * iDivUp a b.
Proof.
  intros Hb. unfold iDivUp.
  pose proof (Z.div_mod a b ltac:(lia)).
  pose proof (Z.mod_pos_bound a b Hb).
  destruct (Z.eqb_spec (a mod b) 0); nia.
Qed.

Lemma iDivUp_pos a b : 0 < b -> 0 < a -> 0 < iDivUp a b.
Proof. intros Hb Ha. pose proof (iDivUp_ceiling a b Hb). nia. Qed.

(** An index is below the ceiling of [a / b] exactly when the tile it
    numbers starts below [a]. *)
Lemma below_iDivUp a b i : 0 < b -> (i < iDivUp a b <-> b * i < a).
Proof. intros Hb. pose proof (iDivUp_ceiling a b Hb). split; nia. Qed.

(** The coordinates of a unit of a 32x8 block, as long as they fit an
    [int]. *)
Lemma thread_x_launch blockIdx threadIdx :
  0 <= dim_x blockIdx -> 0 <= dim_x threadIdx ->
  64 * dim_x blockIdx + 2 * dim_x threadIdx < 2 ^ 31 ->
  thread_x blockIdx launch_blockDim threadIdx
  = 64 * dim_x blockIdx + 2 * dim_x threadIdx.
Proof.
  intros Hb Ht Hfit. unfold thread_x, launch_blockDim. cbn [dim_x].
  change (shl32 32 1) with 64. rewrite shl32_1 by lia.
  rewrite mul32_small, add32_small by lia.
  rewrite to_int_small; lia.
Qed.

Lemma thread_y_launch blockIdx threadIdx :
  0 <= dim_y blockIdx -> 0 <= dim_y threadIdx ->
  8 * dim_y blockIdx + dim_y threadIdx < 2 ^ 31 ->
  thread_y blockIdx launch_blockDim threadIdx
  = 8 * dim_y blockIdx + dim_y threadIdx.
Proof.
  intros Hb Ht Hfit. unfold thread_y, launch_blockDim. cbn [dim_y].
  rewrite mul32_small, add32_small by lia.
  rewrite to_int_small; lia.
Qed.

(** C4 does not hold as stated: the grid has [ceil (width / blockWidth)]
    block columns, not [ceil (width / (2 * blockWidth))].  For a 64x8 image
    the launch has two block columns where one covers the image, and the
    second one starts at column 64 = [width]. *)
Lemma grid_is_not_halved :
  launch_gridDim 64 8 = mk_dim3 2 1 1
  /\ iDivUp 64 (2 * dim_x launch_blockDim) = 1
  /\ In (mk_dim3 1 0 0) (dim3_range (launch_gridDim 64 8))
  /\ thread_x (mk_dim3 1 0 0) launch_blockDim (mk_dim3 0 0 0) = 64.
Proof. vm_compute. intuition. Qed.

(** C4 (as the code has it). The launch uses blocks of 32x8 units and a grid
    of [ceil (width / 32)] by [ceil (height / 8)] blocks.  No block row
    starts below the image.  A block spans 64 columns, so the block columns
    that start inside the image are the first [ceil (width / 64)] of the
    grid; the units of the other block columns find their column outside the
    image and access no memory. *)
Theorem launch_configuration (width height : Z) :
  0 < width -> 0 < height ->
  let gridDim := launch_gridDim width height in
  launch_blockDim = mk_dim3 32 8 1
  /\ dim_z gridDim = 1
  /\ 32 * (dim_x gridDim - 1) < width <= 32 * dim_x gridDim
  /\ 8 * (dim_y gridDim - 1) < height <= 8 * dim_y gridDim
  /\ (forall by_, 0 <= by_ < dim_y gridDim -> 8 * by_ < height)
  /\ iDivUp width 64 <= dim_x gridDim
  /\ (forall bx, 64 * bx < width <-> bx < iDivUp width 64)
  /\ (forall T blockIdx threadIdx srcImageU8 nSourcePitch nDestPitch,
        width <= 2 ^ 30 ->
        0 <= dim_x blockIdx < dim_x gridDim ->
        0 <= dim_x threadIdx < 32 ->
        width <= 64 * dim_x blockIdx ->
        snd (NV12ToRGBA T blockIdx launch_blockDim threadIdx srcImageU8
                        nSourcePitch nDestPitch width height) = []).
Proof.
  intros Hw Hh gridDim. subst gridDim. unfold launch_gridDim.
  cbn [dim_x dim_y dim_z launch_blockDim].
  pose proof (iDivUp_ceiling width 32 ltac:(lia)) as Hcx.
  pose proof (iDivUp_ceiling height 8 ltac:(lia)) as Hcy.
  pose proof (iDivUp_ceiling width 64 ltac:(lia)) as Hc64.
  do 4 (split; [ first [ reflexivity | lia ] | ]).
  split; [ intros by_ Hby; lia | ].
  split; [ lia | ].
  split; [ intros bx; symmetry; apply below_iDivUp; lia | ].
  intros T blockIdx threadIdx srcImageU8 nSourcePitch nDestPitch.
  - intros Hfit Hbx Htx Hout.
    rewrite NV12ToRGBA_outside; [ reflexivity | left ].
    change (mk_dim3 32 8 1) with launch_blockDim.
    rewrite thread_x_launch by lia. rewrite u32_small; lia.
Qed.

Lemma launch_configuration_example :
  launch_blockDim = mk_dim3 32 8 1
  /\ dim_z (launch_gridDim 100 20) = 1
  /\ 32 * (dim_x (launch_gridDim 100 20) - 1) < 100
     <= 32 * dim_x (launch_gridDim 100 20)
  /\ 8 * (dim_y (launch_gridDim 100 20) - 1) < 20
     <= 8 * dim_y (launch_gridDim 100 20)
  /\ (forall by_, 0 <= by_ < dim_y (launch_gridDim 100 20) -> 8 * by_ < 20)
  /\ iDivUp 100 64 <= dim_x (launch_gridDim 100 20)
  /\ (forall bx, 64 * bx < 100 <-> bx < iDivUp 100 64)
  /\ (forall T blockIdx threadIdx srcImageU8 nSourcePitch nDestPitch,
        100 <= 2 ^ 30 ->
        0 <= dim_x blockIdx < dim_x (launch_gridDim 100 20) ->
        0 <= dim_x threadIdx < 32 ->
        100 <= 64 * dim_x blockIdx ->
        snd (NV12ToRGBA T blockIdx launch_blockDim threadIdx srcImageU8
                        nSourcePitch nDestPitch 100 20) = []).
Proof. apply (launch_configuration 100 20); lia. Defined.

(** ** Enumeration of the units of a launch *)

Section Enumeration.

Lemma in_zrange n i : In i (zrange n) <-> 0 <= i < n.
Proof.
  unfold zrange. rewrite in_map_iff. split.
  - intros (k & <- & Hk). apply in_seq in Hk. lia.
  - intros Hi. exists (Z.to_nat i). split; [ lia | ].
    apply in_seq. lia.
Qed.

Lemma NoDup_map_injective {A B : Type} (f : A -> B) (l : list A) :
  (forall a a', f a = f a' -> a = a') -> NoDup l -> NoDup (map f l).
Proof.
  intros Hinj. induction 1 as [ | a l Hnotin Hnd IH ]; cbn.
  - constructor.
  - constructor; [ | exact IH ].
    intros Hin. apply in_map_iff in Hin. destruct Hin as (a' & E & Ha').
    apply Hinj in E. subst a'. contradiction.
Qed.

Lemma NoDup_zrange n : NoDup (zrange n).
Proof.
  unfold zrange. apply NoDup_map_injective.
  - intros a b Hab. lia.
  - apply seq_NoDup.
Qed.

(** Concatenating duplicate-free lists that are pairwise disjoint. *)
Lemma NoDup_flat_map {A B : Type} (f : A -> list B) (l : list A) :
  NoDup l ->
  (forall a, In a l -> NoDup (f a)) ->
  (forall a a' b, In a l -> In a' l -> In b (f a) -> In b (f a') -> a = a') ->
  NoDup (flat_map f l).
Proof.
  induction 1 as [ | a l Hnotin Hnd IH ]; intros Hf Hdisj; cbn.
  - constructor.
  - apply NoDup_app.
    + apply Hf. left. reflexivity.
    + apply IH.
      * intros a' Ha'. apply Hf. right. exact Ha'.
      * intros a1 a2 b H1 H2. apply Hdisj; right; assumption.
    + intros b Hb Hb'. apply in_flat_map in Hb'.
      destruct Hb' as (a' & Ha' & Hb').
      assert (a = a') by (apply (Hdisj a a' b); auto using in_eq, in_cons).
      subst a'. contradiction.
Qed.

Lemma in_dim3_range d i :
  In i (dim3_range d) <->
  0 <= dim_x i < dim_x d /\ 0 <= dim_y i < dim_y d
  /\ 0 <= dim_z i < dim_z d.
Proof.
  unfold dim3_range. rewrite in_flat_map. split.
  - intros (z & Hz & Hi). apply in_flat_map in Hi.
    destruct Hi as (y & Hy & Hi). apply in_map_iff in Hi.
    destruct Hi as (x & <- & Hx). cbn.
    apply in_zrange in Hx, Hy, Hz. auto.
  - intros (Hx & Hy & Hz). exists (dim_z i).
    split; [ apply in_zrange; exact Hz | ].
    apply in_flat_map. exists (dim_y i).
    split; [ apply in_zrange; exact Hy | ].
    apply in_map_iff. exists (dim_x i).
    split; [ destruct i; reflexivity | apply in_zrange; exact Hx ].
Qed.

Lemma NoDup_dim3_range d : NoDup (dim3_range d).
Proof.
  unfold dim3_range. apply NoDup_flat_map.
  - apply NoDup_zrange.
  - intros z _. apply NoDup_flat_map.
    + apply NoDup_zrange.
    + intros y _. apply NoDup_map_injective; [ | apply NoDup_zrange ].
      intros a a' E. injection E. auto.
    + intros y y' i _ _ Hi Hi'.
      apply in_map_iff in Hi, Hi'.
      destruct Hi as (x & <- & _). destruct Hi' as (x' & E & _).
      injection E. auto.
  - intros z z' i _ _ Hi Hi'.
    apply in_flat_map in Hi, Hi'.
    destruct Hi as (y & _ & Hi). destruct Hi' as (y' & _ & Hi').
    apply in_map_iff in Hi, Hi'.
    destruct Hi as (x & <- & _). destruct Hi' as (x' & E & _).
    injection E. auto.
Qed.

Lemma in_grid_threads gridDim blockDim b t :
  In (b, t) (grid_threads gridDim blockDim) <->
  In b (dim3_range gridDim) /\ In t (dim3_range blockDim).
Proof.
  unfold grid_threads. rewrite in_flat_map. split.
  - intros (b' & Hb & Hbt). apply in_map_iff in Hbt.
    destruct Hbt as (t' & E & Ht). injection E as -> ->. auto.
  - intros [Hb Ht]. exists b. split; [ exact Hb | ].
    apply in_map_iff. exists t. auto.
Qed.

Lemma NoDup_grid_threads gridDim blockDim :
  NoDup (grid_threads gridDim blockDim).
Proof.
  unfold grid_threads. apply NoDup_flat_map.
  - apply NoDup_dim3_range.
  - intros b _. apply NoDup_map_injective; [ | apply NoDup_dim3_range ].
    intros t t' E. injection E. auto.
  - intros b b' bt _ _ Hbt Hbt'. apply in_map_iff in Hbt, Hbt'.
    destruct Hbt as (t & <- & _). destruct Hbt' as (t' & E & _).
    injection E. auto.
Qed.

Lemma stores_at_app idx l l' :
  stores_at idx (l ++ l') = (stores_at idx l + stores_at idx l')%nat.
Proof.
  unfold stores_at, stores.
  rewrite flat_map_app, map_app. apply count_occ_app.
Qed.

(** In a log made of the logs of distinct units, an element stored by one
    unit once and by no other unit is stored once. *)
Lemma stores_at_flat_map_unique {A : Type} (f : A -> list event)
    (l : list A) (a0 : A) (idx : Z) :
  NoDup l -> In a0 l ->
  stores_at idx (f a0) = 1%nat ->
  (forall a, In a l -> a <> a0 -> stores_at idx (f a) = 0%nat) ->
  stores_at idx (flat_map f l) = 1%nat.
Proof.
  intros Hnd. revert a0.
  induction Hnd as [ | a l Hnotin Hnd IH ]; intros a0 Hin H1 H0.
  - destruct Hin.
  - cbn [flat_map]. rewrite stores_at_app.
    assert (Hrest : forall l', (forall a', In a' l' -> In a' l) ->
              ~ In a0 l' -> stores_at idx (flat_map f l') = 0%nat).
    { induction l' as [ | a' l' IH' ]; intros Hsub Hnot.
      - reflexivity.
      - cbn [flat_map]. rewrite stores_at_app, IH'.
        + rewrite H0; [ reflexivity | | ].
          * right. apply Hsub. left. reflexivity.
          * intros ->. apply Hnot. left. reflexivity.
        + intros a'' Ha''. apply Hsub. right. exact Ha''.
        + intros Hc. apply Hnot. right. exact Hc. }
    destruct Hin as [-> | Hin].
    + rewrite H1, Hrest; auto.
    + rewrite (H0 a).
      * rewrite (IH a0 Hin H1); [ reflexivity | ].
        intros a' Ha' Hne. apply H0; [ right; exact Ha' | exact Hne ].
      * left. reflexivity.
      * intros ->. contradiction.
Qed.

End Enumeration.

(** ** Coverage of the image *)

(** The two stores of a unit inside the image. *)
Lemma unit_store_indices
    (T : pixel_type) (blockIdx blockDim threadIdx : dim3)
    (srcImageU8 : Z -> Z) (nSourcePitch nDestPitch width height : Z) :
  let x := thread_x blockIdx blockDim threadIdx in
  let y := thread_y blockIdx blockDim threadIdx in
  addressable nSourcePitch width height ->
  0 <= x < width -> 0 <= y < height ->
  map fst (stores (snd (NV12ToRGBA T blockIdx blockDim threadIdx srcImageU8
                                   nSourcePitch nDestPitch width height)))
  = [y * width + x; y * width + (x + 1)].
Proof.
  intros x y Haddr Hx Hy.
  destruct (land_1_cases y) as [Heven | Hodd].
  - rewrite (NV12ToRGBA_even_row T blockIdx blockDim threadIdx srcImageU8
               nSourcePitch nDestPitch width height Haddr Hx Hy Heven).
    reflexivity.
  - rewrite (NV12ToRGBA_odd_row T blockIdx blockDim threadIdx srcImageU8
               nSourcePitch nDestPitch width height Haddr Hx Hy Hodd).
    fold y. destruct (Z.shiftr y 1 <? height / 2 - 1); reflexivity.
Qed.

Lemma unit_stores_at
    (T : pixel_type) (blockIdx blockDim threadIdx : dim3)
    (srcImageU8 : Z -> Z) (nSourcePitch nDestPitch width height idx : Z) :
  let x := thread_x blockIdx blockDim threadIdx in
  let y := thread_y blockIdx blockDim threadIdx in
  addressable nSourcePitch width height ->
  0 <= x < width -> 0 <= y < height ->
  stores_at idx (snd (NV12ToRGBA T blockIdx blockDim threadIdx srcImageU8
                                 nSourcePitch nDestPitch width height))
  = Nat.add (if idx =? y * width + x then 1%nat else 0%nat)
            (if idx =? y * width + (x + 1) then 1%nat else 0%nat).
Proof.
  intros x y Haddr Hx Hy. unfold stores_at.
  rewrite (unit_store_indices T blockIdx blockDim threadIdx srcImageU8
             nSourcePitch nDestPitch width height Haddr Hx Hy).
  fold x y. cbn [count_occ].
  destruct (Z.eq_dec (y * width + x) idx) as [E1 | E1],
           (Z.eq_dec (y * width + (x + 1)) idx) as [E2 | E2],
           (Z.eqb_spec idx (y * width + x)),
           (Z.eqb_spec idx (y * width + (x + 1))); solve [ reflexivity | lia ].
Qed.

(** A pixel of a row of [width] pixels determines its row and its column. *)
Lemma dest_index_injective width row col row' col' :
  0 <= col < width -> 0 <= col' < width ->
  row * width + col = row' * width + col' -> row = row' /\ col = col'.
Proof. intros Hc Hc' E. assert (row = row') by nia. subst. lia. Qed.


Lemma owner_coordinates px py :
  0 <= px < 2 ^ 30 -> 0 <= py < 2 ^ 31 ->
  thread_x (fst (owner px py)) launch_blockDim (snd (owner px py))
  = px - px mod 2
  /\ thread_y (fst (owner px py)) launch_blockDim (snd (owner px py)) = py.
Proof.
  intros Hpx Hpy. unfold owner. cbn [fst snd].
  pose proof (Z.div_mod px 64 ltac:(lia)) as E64.
  pose proof (Z.mod_pos_bound px 64 ltac:(lia)) as B64.
  pose proof (Z.div_mod (px mod 64) 2 ltac:(lia)) as E2.
  pose proof (Z.mod_pos_bound (px mod 64) 2 ltac:(lia)) as B2.
  pose proof (Z.div_mod py 8 ltac:(lia)) as E8.
  pose proof (Z.mod_pos_bound py 8 ltac:(lia)) as B8.
  assert (Hmm : (px mod 64) mod 2 = px mod 2)
    by (Z.to_euclidean_division_equations; lia).
  assert (0 <= px / 64) by (apply Z.div_pos; lia).
  assert (0 <= py / 8) by (apply Z.div_pos; lia).
  assert (0 <= px mod 64 / 2) by (apply Z.div_pos; lia).
  rewrite thread_x_launch, thread_y_launch; cbn [dim_x dim_y]; lia.
Qed.

Lemma in_grid_of_launch width height b t :
  In (b, t) (grid_threads (launch_gridDim width height) launch_blockDim) <->
  (0 <= dim_x b /\ 32 * dim_x b < width)
  /\ (0 <= dim_y b /\ 8 * dim_y b < height) /\ dim_z b = 0
  /\ 0 <= dim_x t < 32 /\ 0 <= dim_y t < 8 /\ dim_z t = 0.
Proof.
  rewrite in_grid_threads, !in_dim3_range.
  unfold launch_gridDim, launch_blockDim. cbn [dim_x dim_y dim_z].
  pose proof (below_iDivUp width 32 (dim_x b) ltac:(lia)).
  pose proof (below_iDivUp height 8 (dim_y b) ltac:(lia)).
  lia.
Qed.

(** C7. For an even width and an even height (both at least 2), every pixel
    (px, py) of the image is stored by exactly one store of the launch: one
    unit of work stores it once and no other unit stores it. *)
Theorem launch_covers_each_pixel_once
    (T : pixel_type) (mem : Z -> Z) (lastError : cudaError_t)
    (srcDev srcPitch destDev destPitch width height px py : Z) :
  srcDev <> 0 -> destDev <> 0 -> destPitch <> 0 ->
  addressable srcPitch width height ->
  Z.even width = true -> Z.even height = true ->
  0 <= px < width -> 0 <= py < height ->
  stores_at (py * width + px)
    (snd (launchNV12ToRGBA T mem lastError srcDev srcPitch destDev destPitch
                           width height))
  = 1%nat.
Proof.
  intros Hs Hd Hdp Haddr Hw Hh Hpx Hpy.
  pose proof Haddr as (Hwp & Hh0 & Hfit).
  apply Z.even_spec in Hw. destruct Hw as [j Hj].
  apply Z.even_spec in Hh. destruct Hh as [k Hk].
  assert (Hw30 : width < 2 ^ 30) by nia.
  assert (Hh31 : height < 2 ^ 31) by nia.
  unfold launchNV12ToRGBA.
  apply Z.eqb_neq in Hs, Hd, Hdp. rewrite Hs, Hd, Hdp.
  assert ((srcPitch =? 0) = false) as -> by (apply Z.eqb_neq; lia).
  assert ((width =? 0) = false) as -> by (apply Z.eqb_neq; lia).
  assert ((height =? 0) = false) as -> by (apply Z.eqb_neq; lia).
  cbn [orb snd]. rewrite !u32_small by lia. unfold run_kernel.
  destruct (owner_coordinates px py ltac:(lia) ltac:(lia)) as [Hox Hoy].
  pose proof (Z.mod_pos_bound px 2 ltac:(lia)) as Hp2.
  pose proof (Z.mod_le px 2 ltac:(lia) ltac:(lia)) as Hp2'.
  apply (stores_at_flat_map_unique _ _ (owner px py)).
  - apply NoDup_grid_threads.
  - unfold owner. apply in_grid_of_launch. cbn [dim_x dim_y dim_z].
    pose proof (Z.div_mod px 64 ltac:(lia)).
    pose proof (Z.mod_pos_bound px 64 ltac:(lia)).
    pose proof (Z.div_mod py 8 ltac:(lia)).
    pose proof (Z.mod_pos_bound py 8 ltac:(lia)).
    pose proof (Z.div_mod (px mod 64) 2 ltac:(lia)).
    pose proof (Z.mod_pos_bound (px mod 64) 2 ltac:(lia)).
    assert (0 <= px / 64) by (apply Z.div_pos; lia).
    assert (0 <= py / 8) by (apply Z.div_pos; lia).
    assert (0 <= px mod 64 / 2) by (apply Z.div_pos; lia).
    lia.
  - rewrite unit_stores_at; rewrite ?Hox, ?Hoy; try assumption; try lia.
    destruct (Z.eqb_spec (py * width + px) (py * width + (px - px mod 2))),
             (Z.eqb_spec (py * width + px)
                         (py * width + (px - px mod 2 + 1)));
      solve [ reflexivity | lia ].
  - intros [b t] Hin Hne. cbn [fst snd].
    apply in_grid_of_launch in Hin.
    destruct Hin as ((Hbx0 & Hbx) & (Hby0 & Hby) & Hbz & Htx & Hty & Htz).
    assert (Hx : thread_x b launch_blockDim t = 64 * dim_x b + 2 * dim_x t)
      by (apply thread_x_launch; lia).
    assert (Hy : thread_y b launch_blockDim t = 8 * dim_y b + dim_y t)
      by (apply thread_y_launch; lia).
    destruct (Z.le_gt_cases width (64 * dim_x b + 2 * dim_x t)) as [Hox' | Hix].
    { rewrite NV12ToRGBA_outside; [ reflexivity | left ].
      rewrite Hx, u32_small; lia. }
    destruct (Z.le_gt_cases height (8 * dim_y b + dim_y t)) as [Hoy' | Hiy].
    { rewrite NV12ToRGBA_outside; [ reflexivity | right ].
      rewrite Hy, u32_small; lia. }
    rewrite unit_stores_at; rewrite ?Hx, ?Hy; try assumption; try lia.
    assert (Hnot : forall d, 0 <= d <= 1 ->
              py * width + px
              <> (8 * dim_y b + dim_y t) * width
                 + (64 * dim_x b + 2 * dim_x t + d)).
    { intros d Hd01 E. apply Hne.
      apply dest_index_injective in E; [ | lia | lia ].
      destruct E as [Ey Ex].
      pose proof (Z.div_mod px 64 ltac:(lia)).
      pose proof (Z.mod_pos_bound px 64 ltac:(lia)).
      pose proof (Z.div_mod py 8 ltac:(lia)).
      pose proof (Z.mod_pos_bound py 8 ltac:(lia)).
      pose proof (Z.div_mod (px mod 64) 2 ltac:(lia)).
      pose proof (Z.mod_pos_bound (px mod 64) 2 ltac:(lia)).
      unfold owner. destruct b as [bx by_ bz], t as [tx ty tz].
      cbn [dim_x dim_y dim_z] in *.
      assert (bx = px / 64) by lia.
      assert (by_ = py / 8) by lia.
      assert (tx = px mod 64 / 2) by lia.
      assert (ty = py mod 8) by lia.
      congruence. }
    pose proof (Hnot 0 ltac:(lia)) as N0.
    pose proof (Hnot 1 ltac:(lia)) as N1.
    destruct (Z.eqb_spec (py * width + px)
                ((8 * dim_y b + dim_y t) * width
                 + (64 * dim_x b + 2 * dim_x t))),
             (Z.eqb_spec (py * width + px)
                ((8 * dim_y b + dim_y t) * width
                 + (64 * dim_x b + 2 * dim_x t + 1)));
      solve [ reflexivity | lia ].
Qed.

Lemma launch_covers_each_pixel_once_example :
  stores_at (1 * 4 + 3)
    (snd (launchNV12ToRGBA uchar4 ramp cudaSuccess 1 4 1 16 4 2))
  = 1%nat.
Proof.
  apply (launch_covers_each_pixel_once uchar4 ramp cudaSuccess 1 4 1 16 4 2
           3 1);
    solve [ discriminate | reflexivity | lia | unfold addressable; lia ].
Defined.

(** ** The colour transform *)

Section Clamp.

Lemma of_Z_0 : F32.of_Z 0 = S754_zero false.
Proof. reflexivity. Qed.

Lemma of_Z_255 : F32.of_Z 255 = S754_finite false 16711680 (-16).
Proof. reflexivity. Qed.


(** The result of [clamp] is a zero, or 255, or a positive finite number
    that is at most 255; never a NaN, an infinity or a negative number. *)
Lemma clamp_cases v :
  (exists s, clamp v = S754_zero s)
  \/ clamp v = F32.of_Z 255
  \/ exists m e, clamp v = S754_finite false m e /\ at_most_255 m e.
Proof.
  unfold clamp. rewrite of_Z_0, of_Z_255.
  destruct v as [ s | s | | s m e ].
  - left. exists s. reflexivity.
  - destruct s; [ left; exists false | right; left ]; reflexivity.
  - left. exists false. reflexivity.
  - destruct s; [ left; exists false; reflexivity | ].
    change (F32.fmaxf (S754_finite false m e) (S754_zero false))
      with (S754_finite false m e).
    unfold F32.fminf, F32.compare, F32.sgn. rewrite !Z.mul_1_l.
    destruct (Z.compare_spec
                (Z.pos m * 2 ^ (e - Z.min e (-16)))
                (16711680 * 2 ^ (-16 - Z.min e (-16)))) as [E | E | E].
    + right. right. exists m, e. split; [ reflexivity | ].
      unfold at_most_255. lia.
    + right. right. exists m, e. split; [ reflexivity | ].
      unfold at_most_255. lia.
    + right. left. reflexivity.
Qed.

Lemma at_most_255_trunc m e :
  at_most_255 m e -> 0 <= Z.shiftl (Z.pos m) e <= 255.
Proof.
  unfold at_most_255. intros H. split.
  { apply Z.shiftl_nonneg. lia. }
  destruct (Z.le_gt_cases 0 e) as [He | He].
  - rewrite Z.min_r in H by lia. rewrite Z.shiftl_mul_pow2 by lia.
    replace (e - -16) with (e + 16) in H by lia.
    replace (-16 - -16) with 0 in H by lia.
    rewrite Z.pow_add_r in H by lia.
    assert (0 < 2 ^ e) by (apply Z.pow_pos_nonneg; lia).
    change (2 ^ 16) with 65536 in H. change (2 ^ 0) with 1 in H. nia.
  - rewrite Z.shiftl_div_pow2 by lia.
    assert (HB : 0 < 2 ^ (- e)) by (apply Z.pow_pos_nonneg; lia).
    apply Z.lt_succ_r, Z.div_lt_upper_bound; [ exact HB | ].
    destruct (Z.le_gt_cases (-16) e) as [He' | He'].
    + rewrite Z.min_r in H by lia.
      replace (e - -16) with (e + 16) in H by lia.
      replace (-16 - -16) with 0 in H by lia.
      assert (HA : 0 < 2 ^ (e + 16)) by (apply Z.pow_pos_nonneg; lia).
      assert (HAB : 2 ^ (e + 16) * 2 ^ (- e) = 65536).
      { rewrite <- Z.pow_add_r by lia.
        replace (e + 16 + - e) with 16 by lia. reflexivity. }
      change (2 ^ 0) with 1 in H. nia.
    + rewrite Z.min_l in H by lia.
      replace (e - e) with 0 in H by lia. change (2 ^ 0) with 1 in H.
      replace (- e) with (16 + (-16 - e)) by lia.
      rewrite Z.pow_add_r by lia. change (2 ^ 16) with 65536.
      assert (0 < 2 ^ (-16 - e)) by (apply Z.pow_pos_nonneg; lia).
      nia.
Qed.

(** Every clamped value is in [0, 255] as a floating-point channel, and
    its conversion to a byte does not wrap around. *)
Lemma clamp_in_range v :
  channel_in_range (FloatChannel (clamp v)) = true
  /\ 0 <= F32.trunc (clamp v) <= 255
  /\ uchar_of_float (clamp v) = F32.trunc (clamp v).
Proof.
  assert (H : channel_in_range (FloatChannel (clamp v)) = true
              /\ 0 <= F32.trunc (clamp v) <= 255).
  { destruct (clamp_cases v) as [ [s ->] | [ -> | (m & e & -> & Hme) ] ].
    - split; [ destruct s; reflexivity | cbn; lia ].
    - split; [ reflexivity | vm_compute; split; discriminate ].
    - pose proof (at_most_255_trunc m e Hme) as Ht. split.
      + cbn [channel_in_range]. rewrite of_Z_0, of_Z_255.
        unfold F32.leb at 1. cbn [F32.compare SFcompare andb].
        unfold F32.leb, F32.compare, F32.sgn. rewrite !Z.mul_1_l.
        unfold at_most_255 in Hme.
        destruct (Z.compare_spec
                    (Z.pos m * 2 ^ (e - Z.min e (-16)))
                    (16711680 * 2 ^ (-16 - Z.min e (-16))));
          solve [ reflexivity | lia ].
      + unfold F32.trunc, F32.sgn. lia. }
  destruct H as [H1 H2]. repeat split; try assumption; try lia.
  unfold uchar_of_float. apply u8_small. lia.
Qed.

(** Saturation: a value above 255 is clamped to exactly 255, a value below
    0 to exactly 0. *)
Lemma clamp_saturates v :
  (F32.compare v (F32.of_Z 255) = Some Gt -> clamp v = F32.of_Z 255)
  /\ (F32.compare v (F32.of_Z 0) = Some Lt -> clamp v = F32.of_Z 0).
Proof.
  unfold clamp. rewrite of_Z_0, of_Z_255. split.
  - destruct v as [ s | s | | s m e ]; try discriminate.
    + destruct s; [ discriminate | reflexivity ].
    + destruct s.
      * unfold F32.compare, F32.sgn.
        destruct (Z.compare_spec
                    (-1 * Z.pos m * 2 ^ (e - Z.min e (-16)))
                    (1 * 16711680 * 2 ^ (-16 - Z.min e (-16))))
          as [E | E | E]; try discriminate.
        intros _. exfalso.
        assert (0 < 2 ^ (e - Z.min e (-16)))
          by (apply Z.pow_pos_nonneg; lia).
        assert (0 < 2 ^ (-16 - Z.min e (-16)))
          by (apply Z.pow_pos_nonneg; lia).
        assert (0 < Z.pos m * 2 ^ (e - Z.min e (-16)))
          by (apply Z.mul_pos_pos; lia).
        lia.
      * intros H.
        change (F32.fmaxf (S754_finite false m e) (S754_zero false))
          with (S754_finite false m e).
        unfold F32.fminf. rewrite H. reflexivity.
  - intros H. unfold F32.fmaxf. rewrite H. reflexivity.
Qed.

End Clamp.

(** C8 does not hold as stated: no input saturates all three channels.  At
    maximum luma the four extreme chroma pairs leave at least one channel
    below 255 each, and mid-scale chroma gives 254 on all three; a source
    of bytes that are all 255 is converted to (255, 130, 255). *)
Lemma maximum_chroma_does_not_saturate_all_channels :
  YUV2RGB uchar3 (make_uint3 1020 1020 1020) = Uchar3 255 130 255
  /\ YUV2RGB uchar3 (make_uint3 1020 0 0) = Uchar3 108 255 0
  /\ YUV2RGB uchar3 (make_uint3 1020 1020 0) = Uchar3 108 255 255
  /\ YUV2RGB uchar3 (make_uint3 1020 0 1020) = Uchar3 255 230 0
  /\ YUV2RGB uchar3 (make_uint3 1020 512 512) = Uchar3 254 254 254
  /\ map snd (stores (snd (launchNV12ToRGBA uchar3 (fun _ => 255) cudaSuccess
                                            1 2 1 6 2 2)))
     = [Uchar3 255 130 255; Uchar3 255 130 255;
        Uchar3 255 130 255; Uchar3 255 130 255].
Proof. vm_compute. repeat split. Qed.

Lemma scale_is_255_over_1024 :
  F32.mul (F32.div (F32.of_Z 1) (F32.of_Z 1024)) (F32.of_Z 255) = Spec.scale.
Proof. reflexivity. Qed.

Lemma YUV2RGB_channels_formula yuvi :
  YUV2RGB_channels yuvi
  = (Spec.R (u3_x yuvi) (u3_y yuvi) (u3_z yuvi),
     Spec.G (u3_x yuvi) (u3_y yuvi) (u3_z yuvi),
     Spec.B (u3_x yuvi) (u3_y yuvi) (u3_z yuvi)).
Proof.
  unfold YUV2RGB_channels, Spec.R, Spec.G, Spec.B, Spec.clamp, Spec.centred,
    clamp.
  rewrite scale_is_255_over_1024. reflexivity.
Qed.

Lemma YUV2RGB_channels_clamped yuvi :
  exists r g b,
    YUV2RGB_channels yuvi = (clamp r, clamp g, clamp b).
Proof. unfold YUV2RGB_channels. eauto. Qed.

(** C8 (as the code has it). Every channel of a converted pixel is the
    clamped linear transform of the sample, with Cb and Cr centred by
    subtracting 512 and the scale 255/1024, and lies in [0, 255]; a byte
    channel is the integer part of that value, without wrap-around.  A
    channel whose value before clamping is above 255 is exactly 255 and one
    below 0 is exactly 0.  Maximum luma with maximum chroma saturates red
    and blue to 255, and leaves green at 130. *)
Theorem YUV2RGB_formula_and_range (T : pixel_type) (yuvi : uint3) :
  let R := Spec.R (u3_x yuvi) (u3_y yuvi) (u3_z yuvi) in
  let G := Spec.G (u3_x yuvi) (u3_y yuvi) (u3_z yuvi) in
  let B := Spec.B (u3_x yuvi) (u3_y yuvi) (u3_z yuvi) in
  YUV2RGB T yuvi = make_vec T R G B (F32.of_Z 255)
  /\ forallb channel_in_range (pixel_channels (YUV2RGB T yuvi)) = true
  /\ YUV2RGB uchar3 yuvi = Uchar3 (F32.trunc R) (F32.trunc G) (F32.trunc B)
  /\ (forall v, F32.compare v (F32.of_Z 255) = Some Gt ->
                clamp v = F32.of_Z 255)
  /\ (forall v, F32.compare v (F32.of_Z 0) = Some Lt ->
                clamp v = F32.of_Z 0)
  /\ YUV2RGB uchar3 (make_uint3 1020 1020 1020) = Uchar3 255 130 255.
Proof.
  intros R G B.
  assert (Hformula : forall T', YUV2RGB T' yuvi
                                = make_vec T' R G B (F32.of_Z 255)).
  { intros T'. unfold YUV2RGB. rewrite YUV2RGB_channels_formula.
    reflexivity. }
  destruct (YUV2RGB_channels_clamped yuvi) as (r & g & b & Hc).
  rewrite YUV2RGB_channels_formula in Hc. fold R G B in Hc.
  injection Hc as HR HG HB.
  destruct (clamp_in_range r) as (Hr1 & Hr2 & Hr3).
  destruct (clamp_in_range g) as (Hg1 & Hg2 & Hg3).
  destruct (clamp_in_range b) as (Hb1 & Hb2 & Hb3).
  rewrite <- HR in Hr1, Hr2, Hr3. rewrite <- HG in Hg1, Hg2, Hg3.
  rewrite <- HB in Hb1, Hb2, Hb3.
  assert (Hbyte : forall f, 0 <= F32.trunc f <= 255 ->
            channel_in_range (ByteChannel (F32.trunc f)) = true).
  { intros f Hf. cbn. apply Bool.andb_true_iff.
    split; [ apply Z.leb_le | apply Z.leb_le ]; lia. }
  split; [ apply Hformula | ].
  split.
  { rewrite Hformula.
    destruct T; cbn [make_vec pixel_channels forallb];
      rewrite ?Hr3, ?Hg3, ?Hb3, ?Hbyte, ?Hr1, ?Hg1, ?Hb1 by assumption;
      reflexivity. }
  split.
  { rewrite Hformula. cbn [make_vec]. rewrite Hr3, Hg3, Hb3. reflexivity. }
  split; [ intros v; apply clamp_saturates | ].
  split; [ intros v; apply clamp_saturates | ].
  reflexivity.
Qed.

Lemma YUV2RGB_formula_and_range_example :
  YUV2RGB float4 (make_uint3 1020 1020 1020)
  = make_vec float4 (Spec.R 1020 1020 1020) (Spec.G 1020 1020 1020)
                    (Spec.B 1020 1020 1020) (F32.of_Z 255)
  /\ clamp (F32.of_Z 300) = F32.of_Z 255
  /\ clamp (F32.of_Z (-3)) = F32.of_Z 0.
Proof.
  destruct (YUV2RGB_formula_and_range float4 (make_uint3 1020 1020 1020))
    as (Hf & _ & _ & Hhi & Hlo & _).
  split; [ exact Hf | ].
  split; [ apply Hhi | apply Hlo ]; reflexivity.
Defined.

(** ** Alpha *)

(** Every pixel a unit of work stores comes out of [YUV2RGB]. *)
Lemma kernel_stores_YUV2RGB
    (T : pixel_type) (blockIdx blockDim threadIdx : dim3)
    (srcImageU8 : Z -> Z) (nSourcePitch nDestPitch width height : Z) :
  Forall (fun iv => exists yuvi, snd iv = YUV2RGB T yuvi)
    (stores (snd (NV12ToRGBA T blockIdx blockDim threadIdx srcImageU8
                             nSourcePitch nDestPitch width height))).
Proof.
  unfold NV12ToRGBA.
  repeat match goal with
         | |- context [if ?c then _ else _] => destruct c
         end;
    unfold bind, ret, load, store; cbn [fst snd app stores flat_map];
    repeat constructor; eexists; reflexivity.
Qed.

Lemma stores_flat_map {A : Type} (f : A -> list event) (l : list A) :
  stores (flat_map f l) = flat_map (fun a => stores (f a)) l.
Proof.
  induction l as [ | a l IH ]; [ reflexivity | ].
  cbn [flat_map]. rewrite <- IH. unfold stores. apply flat_map_app.
Qed.

Lemma launch_stores_YUV2RGB
    (T : pixel_type) (mem : Z -> Z) (lastError : cudaError_t)
    (srcDev srcPitch destDev destPitch width height : Z) :
  Forall (fun iv => exists yuvi, snd iv = YUV2RGB T yuvi)
    (stores (snd (launchNV12ToRGBA T mem lastError srcDev srcPitch destDev
                                   destPitch width height))).
Proof.
  unfold launchNV12ToRGBA.
  destruct ((srcDev =? 0) || (destDev =? 0)); [ constructor | ].
  destruct ((srcPitch =? 0) || (destPitch =? 0) || (width =? 0)
            || (height =? 0)); [ constructor | ].
  cbn [snd]. unfold run_kernel. rewrite stores_flat_map.
  apply Forall_flat_map, Forall_forall. intros bt _.
  apply kernel_stores_YUV2RGB.
Qed.

(** C9. For both 4-channel destination types, the alpha channel of every
    pixel the conversion produces, and so of every pixel a launch stores, is
    the full-scale value of the type (255 as a byte, 255.0 as a float),
    whatever the luma and chroma of the input.  Full scale is the largest
    value of a byte and the largest value [clamp] lets a floating-point
    channel take. *)
Theorem alpha_is_full_scale
    (T : pixel_type) (mem : Z -> Z) (lastError : cudaError_t)
    (srcDev srcPitch destDev destPitch width height : Z) :
  channels T = 4 ->
  (forall yuvi, pixel_alpha (YUV2RGB T yuvi) = Some (full_scale T))
  /\ Forall (fun iv => pixel_alpha (snd iv) = Some (full_scale T))
       (stores (snd (launchNV12ToRGBA T mem lastError srcDev srcPitch
                                      destDev destPitch width height)))
  /\ (forall z, u8 z <= 2 ^ 8 - 1)
  /\ (forall v, F32.leb (clamp v) (F32.of_Z 255) = true).
Proof.
  intros H4.
  assert (Halpha : forall yuvi,
            pixel_alpha (YUV2RGB T yuvi) = Some (full_scale T)).
  { intros yuvi. unfold YUV2RGB.
    destruct (YUV2RGB_channels yuvi) as [[r g] b].
    destruct T; try discriminate H4; reflexivity. }
  split; [ exact Halpha | ].
  split.
  { eapply Forall_impl; [ | apply launch_stores_YUV2RGB ].
    intros iv (yuvi & ->). apply Halpha. }
  split.
  { intros z. pose proof (u8_range z). lia. }
  intros v. destruct (clamp_in_range v) as (Hr & _ & _).
  cbn [channel_in_range] in Hr. apply Bool.andb_true_iff in Hr. apply Hr.
Qed.

Lemma alpha_is_full_scale_example :
  (forall yuvi, pixel_alpha (YUV2RGB uchar4 yuvi) = Some (ByteChannel 255))
  /\ Forall (fun iv => pixel_alpha (snd iv) = Some (ByteChannel 255))
       (stores (snd (launchNV12ToRGBA uchar4 ramp cudaSuccess 1 4 1 16 4 2)))
  /\ (forall z, u8 z <= 2 ^ 8 - 1)
  /\ (forall v, F32.leb (clamp v) (F32.of_Z 255) = true).
Proof.
  apply (alpha_is_full_scale uchar4 ramp cudaSuccess 1 4 1 16 4 2).
  reflexivity.
Defined.

(** ** Three and four channels *)

Lemma YUV2RGB_without_alpha T yuvi :
  YUV2RGB (without_alpha T) yuvi = drop_alpha (YUV2RGB T yuvi).
Proof.
  unfold YUV2RGB. destruct (YUV2RGB_channels yuvi) as [[r g] b].
  destruct T; reflexivity.
Qed.

Lemma kernel_without_alpha
    (T : pixel_type) (blockIdx blockDim threadIdx : dim3)
    (srcImageU8 : Z -> Z) (nSourcePitch nDestPitch width height : Z) :
  snd (NV12ToRGBA (without_alpha T) blockIdx blockDim threadIdx srcImageU8
                  nSourcePitch nDestPitch width height)
  = map drop_alpha_event
        (snd (NV12ToRGBA T blockIdx blockDim threadIdx srcImageU8
                         nSourcePitch nDestPitch width height)).
Proof.
  unfold NV12ToRGBA.
  repeat match goal with
         | |- context [if ?c then _ else _] => destruct c
         end;
    unfold bind, ret, load, store; cbn [fst snd app map drop_alpha_event];
    rewrite ?YUV2RGB_without_alpha; reflexivity.
Qed.

Lemma map_flat_map {A B C : Type} (g : B -> C) (f : A -> list B)
    (l : list A) :
  map g (flat_map f l) = flat_map (fun a => map g (f a)) l.
Proof.
  induction l as [ | a l IH ]; [ reflexivity | ].
  cbn [flat_map]. rewrite map_app, IH. reflexivity.
Qed.

(** C10. The three colour channels written for a 3-channel destination are
    those written for the 4-channel destination of the same numeric kind:
    [YUV2RGB] gives the same pixel without its alpha, and a launch makes the
    same loads and the same stores, at the same elements, of the same
    pixels without their alpha. *)
Theorem channel_count_only_affects_alpha
    (T : pixel_type) (mem : Z -> Z) (lastError : cudaError_t)
    (srcDev srcPitch destDev destPitch width height : Z) :
  (forall yuvi, YUV2RGB (without_alpha T) yuvi = drop_alpha (YUV2RGB T yuvi))
  /\ without_alpha uchar4 = uchar3 /\ without_alpha float4 = float3
  /\ launchNV12ToRGBA (without_alpha T) mem lastError srcDev srcPitch
                      destDev destPitch width height
     = (fst (launchNV12ToRGBA T mem lastError srcDev srcPitch destDev
                              destPitch width height),
        map drop_alpha_event
            (snd (launchNV12ToRGBA T mem lastError srcDev srcPitch destDev
                                   destPitch width height))).
Proof.
  split; [ intros yuvi; apply YUV2RGB_without_alpha | ].
  split; [ reflexivity | ]. split; [ reflexivity | ].
  unfold launchNV12ToRGBA.
  destruct ((srcDev =? 0) || (destDev =? 0)); [ reflexivity | ].
  destruct ((srcPitch =? 0) || (destPitch =? 0) || (width =? 0)
            || (height =? 0)); [ reflexivity | ].
  cbn [fst snd]. f_equal. unfold run_kernel. rewrite map_flat_map.
  apply flat_map_ext. intros bt. apply kernel_without_alpha.
Qed.

(** * Further properties of the conversion *)

(** ** Packing of pixels into words *)

(** A finite number [m * 2^e] that is at most the integer [N], the bound
    being represented as [N * 2^k * 2^(-k)]. *)
Lemma bounded_value_trunc (N k : Z) (m : positive) (e : Z) :
  0 <= k -> 0 <= N ->
  Z.pos m * 2 ^ (e - Z.min e (- k))
  <= N * 2 ^ k * 2 ^ (- k - Z.min e (- k)) ->
  0 <= Z.shiftl (Z.pos m) e <= N.
Proof.
  intros Hk HN H. split; [ apply Z.shiftl_nonneg; lia | ].
  assert (HP : 0 < 2 ^ k) by (apply Z.pow_pos_nonneg; lia).
  destruct (Z.le_gt_cases 0 e) as [He | He].
  - rewrite Z.min_r in H by lia. rewrite Z.shiftl_mul_pow2 by lia.
    replace (e - - k) with (e + k) in H by lia.
    replace (- k - - k) with 0 in H by lia.
    rewrite Z.pow_add_r in H by lia. change (2 ^ 0) with 1 in H.
    assert (0 < 2 ^ e) by (apply Z.pow_pos_nonneg; lia). nia.
  - rewrite Z.shiftl_div_pow2 by lia.
    assert (HB : 0 < 2 ^ (- e)) by (apply Z.pow_pos_nonneg; lia).
    apply Z.lt_succ_r, Z.div_lt_upper_bound; [ exact HB | ].
    destruct (Z.le_gt_cases (- k) e) as [He' | He'].
    + rewrite Z.min_r in H by lia.
      replace (e - - k) with (e + k) in H by lia.
      replace (- k - - k) with 0 in H by lia. change (2 ^ 0) with 1 in H.
      assert (HA : 0 < 2 ^ (e + k)) by (apply Z.pow_pos_nonneg; lia).
      assert (HAB : 2 ^ (e + k) * 2 ^ (- e) = 2 ^ k).
      { rewrite <- Z.pow_add_r by lia. f_equal. lia. }
      nia.
    + rewrite Z.min_l in H by lia.
      replace (e - e) with 0 in H by lia. change (2 ^ 0) with 1 in H.
      assert (HC : 0 < 2 ^ (- k - e)) by (apply Z.pow_pos_nonneg; lia).
      assert (HAB : 2 ^ k * 2 ^ (- k - e) = 2 ^ (- e)).
      { rewrite <- Z.pow_add_r by lia. f_equal. lia. }
      nia.
Qed.

(** The integer part of a value clamped between 0 and the integer [N]
    (given as the binary number [M * 2^(-k)]) is between 0 and [N], whatever
    the value: NaN and the negative numbers give 0, the numbers above [N]
    and the infinity give [N]. *)
Lemma trunc_clamped (N k : Z) (M : positive) (v : float) :
  0 <= k -> 0 <= N -> Z.pos M = N * 2 ^ k ->
  0 <= F32.trunc (F32.fminf (F32.fmaxf v (S754_zero false))
                            (S754_finite false M (- k))) <= N.
Proof.
  intros Hk HN HM.
  assert (Hhi : F32.trunc (S754_finite false M (- k)) = N).
  { unfold F32.trunc, F32.sgn. rewrite Z.mul_1_l.
    rewrite Z.shiftl_div_pow2 by lia. rewrite Z.opp_involutive, HM.
    apply Z.div_mul. apply Z.pow_nonzero; lia. }
  destruct v as [ s | s | | s m e ].
  - change (F32.fmaxf (S754_zero s) (S754_zero false)) with (S754_zero s).
    cbn. lia.
  - destruct s.
    + cbn. lia.
    + change (F32.fminf (F32.fmaxf (S754_infinity false) (S754_zero false))
                        (S754_finite false M (- k)))
        with (S754_finite false M (- k)).
      rewrite Hhi. lia.
  - cbn. lia.
  - destruct s.
    + cbn. lia.
    + change (F32.fmaxf (S754_finite false m e) (S754_zero false))
        with (S754_finite false m e).
      unfold F32.fminf, F32.compare, F32.sgn. rewrite !Z.mul_1_l.
      destruct (Z.compare_spec
                  (Z.pos m * 2 ^ (e - Z.min e (- k)))
                  (Z.pos M * 2 ^ (- k - Z.min e (- k)))) as [E | E | E].
      * unfold F32.trunc, F32.sgn. rewrite Z.mul_1_l.
        apply (bounded_value_trunc N k); try assumption. rewrite <- HM. lia.
      * unfold F32.trunc, F32.sgn. rewrite Z.mul_1_l.
        apply (bounded_value_trunc N k); try assumption. rewrite <- HM. lia.
      * rewrite Hhi. lia.
Qed.

Lemma of_Z_1023 : F32.of_Z 1023 = S754_finite false 16760832 (-14).
Proof. reflexivity. Qed.

(** Four bytes packed into a word, the first in the top byte, are read back
    by the shifts and masks of [pixel_channels]. *)
Lemma packed_bytes_unpack r g b a :
  let word := or32 (or32 (or32 (shl32 (u32 (u8 r)) 24)
                               (shl32 (u32 (u8 g)) 16))
                         (shl32 (u32 (u8 b)) 8))
                   (u32 (u8 a)) in
  and32 (shr32 word 24) 255 = u8 r /\ and32 (shr32 word 16) 255 = u8 g
  /\ and32 (shr32 word 8) 255 = u8 b /\ and32 word 255 = u8 a.
Proof.
  cbv zeta. unfold or32, and32, shr32, shl32, u32, u8.
  change (255 mod 2 ^ 32) with (Z.ones 8).
  repeat split; Z.bitblast;
    repeat match goal with
           | |- context [Z.testbit ?v ?k] =>
               rewrite (Z.testbit_neg_r v k) by lia
           end;
    cbn [andb orb]; rewrite ?Bool.andb_true_r, ?Bool.orb_false_r;
    reflexivity.
Qed.

(** X1. For every three floating-point colours and an alpha byte,
    [RGBAPACK_8bit] builds a word whose four bytes, from the top, are the
    integer parts of the colours clamped to [0, 255] and the alpha: the
    fields do not overlap and each is a byte, whatever the colours (NaN,
    negative and oversized values included). *)
Theorem RGBAPACK_8bit_unpacks (red green blue : float) (alpha : Z) :
  0 <= alpha < 256 ->
  pixel_channels (Packed32 (RGBAPACK_8bit red green blue alpha))
  = [ByteChannel (F32.trunc (clamp red));
     ByteChannel (F32.trunc (clamp green));
     ByteChannel (F32.trunc (clamp blue));
     ByteChannel alpha]
  /\ forallb channel_in_range
       (pixel_channels (Packed32 (RGBAPACK_8bit red green blue alpha)))
     = true.
Proof.
  intros Ha.
  destruct (clamp_in_range red) as (_ & Hr & _).
  destruct (clamp_in_range green) as (_ & Hg & _).
  destruct (clamp_in_range blue) as (_ & Hb & _).
  assert (Hchannels :
    pixel_channels (Packed32 (RGBAPACK_8bit red green blue alpha))
    = [ByteChannel (F32.trunc (clamp red));
       ByteChannel (F32.trunc (clamp green));
       ByteChannel (F32.trunc (clamp blue));
       ByteChannel alpha]).
  { unfold RGBAPACK_8bit. cbv zeta. fold (clamp red) (clamp green) (clamp blue).
    rewrite <- (u8_small (F32.trunc (clamp red))) by lia.
    rewrite <- (u8_small (F32.trunc (clamp green))) by lia.
    rewrite <- (u8_small (F32.trunc (clamp blue))) by lia.
    rewrite <- (u8_small alpha) by lia.
    cbn [pixel_channels].
    destruct (packed_bytes_unpack (F32.trunc (clamp red))
                (F32.trunc (clamp green)) (F32.trunc (clamp blue)) alpha)
      as (-> & -> & -> & ->).
    reflexivity. }
  split; [ exact Hchannels | ].
  rewrite Hchannels. cbn [forallb channel_in_range].
  repeat (apply Bool.andb_true_iff; split);
    solve [ apply Z.leb_le; lia | reflexivity ].
Qed.

Lemma RGBAPACK_8bit_unpacks_example :
  pixel_channels
    (Packed32 (RGBAPACK_8bit (F32.of_Z 300) (F32.of_Z (-7)) (F32.of_Z 18)
                             255))
  = [ByteChannel (F32.trunc (clamp (F32.of_Z 300)));
     ByteChannel (F32.trunc (clamp (F32.of_Z (-7))));
     ByteChannel (F32.trunc (clamp (F32.of_Z 18)));
     ByteChannel 255]
  /\ forallb channel_in_range
       (pixel_channels
          (Packed32 (RGBAPACK_8bit (F32.of_Z 300) (F32.of_Z (-7))
                                   (F32.of_Z 18) 255)))
     = true.
Proof.
  apply (RGBAPACK_8bit_unpacks (F32.of_Z 300) (F32.of_Z (-7)) (F32.of_Z 18)
           255).
  lia.
Defined.

(** X2. [RGBAPACK_10bit] clamps its colours to [0, 1023] and keeps the top
    eight of their ten bits: the four bytes of its word, from the top, are
    the integer parts of the clamped colours divided by 4 (shifted right by
    2) and the alpha, each a byte, whatever the colours. *)
Theorem RGBAPACK_10bit_unpacks (red green blue : float) (alpha : Z) :
  let clamp10 v := F32.fminf (F32.fmaxf v (F32.of_Z 0)) (F32.of_Z 1023) in
  0 <= alpha < 256 ->
  pixel_channels (Packed32 (RGBAPACK_10bit red green blue alpha))
  = [ByteChannel (Z.shiftr (F32.trunc (clamp10 red)) 2);
     ByteChannel (Z.shiftr (F32.trunc (clamp10 green)) 2);
     ByteChannel (Z.shiftr (F32.trunc (clamp10 blue)) 2);
     ByteChannel alpha]
  /\ forallb channel_in_range
       (pixel_channels (Packed32 (RGBAPACK_10bit red green blue alpha)))
     = true.
Proof.
  intros clamp10 Ha.
  assert (Hc : forall v, 0 <= F32.trunc (clamp10 v) <= 1023).
  { intros v. unfold clamp10. rewrite of_Z_0, of_Z_1023.
    apply (trunc_clamped 1023 14 16760832 v); lia. }
  assert (Hq : forall v,
            0 <= Z.shiftr (F32.trunc (clamp10 v)) 2 < 256
            /\ shr32 (u32 (F32.trunc (clamp10 v))) 2
               = Z.shiftr (F32.trunc (clamp10 v)) 2).
  { intros v. pose proof (Hc v) as Hv. split.
    - rewrite Z.shiftr_div_pow2 by lia. change (2 ^ 2) with 4.
      split; [ apply Z.div_pos; lia | apply Z.div_lt_upper_bound; lia ].
    - unfold shr32. rewrite u32_idemp, u32_small by lia. reflexivity. }
  destruct (Hq red) as (Hr & Er). destruct (Hq green) as (Hg & Eg).
  destruct (Hq blue) as (Hb & Eb).
  assert (Hchannels :
    pixel_channels (Packed32 (RGBAPACK_10bit red green blue alpha))
    = [ByteChannel (Z.shiftr (F32.trunc (clamp10 red)) 2);
       ByteChannel (Z.shiftr (F32.trunc (clamp10 green)) 2);
       ByteChannel (Z.shiftr (F32.trunc (clamp10 blue)) 2);
       ByteChannel alpha]).
  { unfold RGBAPACK_10bit. cbv zeta.
    fold (clamp10 red) (clamp10 green) (clamp10 blue).
    rewrite Er, Eg, Eb.
    rewrite <- (u8_small (Z.shiftr (F32.trunc (clamp10 red)) 2)) by lia.
    rewrite <- (u8_small (Z.shiftr (F32.trunc (clamp10 green)) 2)) by lia.
    rewrite <- (u8_small (Z.shiftr (F32.trunc (clamp10 blue)) 2)) by lia.
    rewrite <- (u8_small alpha) by lia.
    rewrite <- (u32_small (u8 (Z.shiftr (F32.trunc (clamp10 red)) 2)))
      at 1 by (pose proof (u8_range (Z.shiftr (F32.trunc (clamp10 red)) 2));
               lia).
    rewrite <- (u32_small (u8 (Z.shiftr (F32.trunc (clamp10 green)) 2)))
      at 1 by (pose proof (u8_range (Z.shiftr (F32.trunc (clamp10 green)) 2));
               lia).
    rewrite <- (u32_small (u8 (Z.shiftr (F32.trunc (clamp10 blue)) 2)))
      at 1 by (pose proof (u8_range (Z.shiftr (F32.trunc (clamp10 blue)) 2));
               lia).
    cbn [pixel_channels].
    destruct (packed_bytes_unpack
                (Z.shiftr (F32.trunc (clamp10 red)) 2)
                (Z.shiftr (F32.trunc (clamp10 green)) 2)
                (Z.shiftr (F32.trunc (clamp10 blue)) 2) alpha)
      as (-> & -> & -> & ->).
    reflexivity. }
  split; [ exact Hchannels | ].
  rewrite Hchannels. cbn [forallb channel_in_range].
  repeat (apply Bool.andb_true_iff; split);
    solve [ apply Z.leb_le; lia | reflexivity ].
Qed.

Lemma RGBAPACK_10bit_unpacks_example :
  pixel_channels
    (Packed32 (RGBAPACK_10bit (F32.of_Z 2000) (F32.of_Z 515) (F32.of_Z (-1))
                              255))
  = [ByteChannel 255; ByteChannel 128; ByteChannel 0; ByteChannel 255].
Proof.
  apply (RGBAPACK_10bit_unpacks (F32.of_Z 2000) (F32.of_Z 515)
           (F32.of_Z (-1)) 255).
  lia.
Defined.

(** ** Grey samples *)

Lemma grey_levels_checked :
  forallb (fun Y =>
             is_grey_level uchar3 (Y * 255 / 1024)
                           (YUV2RGB uchar3 (make_uint3 Y 512 512))
             && is_grey_level uchar4 (Y * 255 / 1024)
                              (YUV2RGB uchar4 (make_uint3 Y 512 512)))
          (zrange 1024) = true.
Proof. vm_compute. reflexivity. Qed.

Lemma grey_sample Y :
  0 <= Y < 1024 ->
  YUV2RGB uchar3 (make_uint3 Y 512 512)
  = Uchar3 (Y * 255 / 1024) (Y * 255 / 1024) (Y * 255 / 1024)
  /\ YUV2RGB uchar4 (make_uint3 Y 512 512)
     = Uchar4 (Y * 255 / 1024) (Y * 255 / 1024) (Y * 255 / 1024) 255.
Proof.
  intros HY. pose proof grey_levels_checked as H.
  rewrite forallb_forall in H. specialize (H Y).
  rewrite in_zrange in H. specialize (H HY).
  apply Bool.andb_true_iff in H. destruct H as [H3 H4].
  destruct (YUV2RGB uchar3 (make_uint3 Y 512 512)) as [x y z | | | | ];
    try discriminate H3.
  destruct (YUV2RGB uchar4 (make_uint3 Y 512 512)) as [ | x' y' z' w' | | | ];
    try discriminate H4.
  cbn [is_grey_level] in H3, H4.
  repeat match goal with
         | H : _ && _ = true |- _ =>
             apply Bool.andb_true_iff in H; destruct H
         | H : (_ =? _) = true |- _ => apply Z.eqb_eq in H
         end.
  subst. split; reflexivity.
Qed.

(** X3. A sample without colour (Cb = Cr = 512, the mid-scale value) is
    converted to a grey byte pixel: for every luma Y on the 10-bit scale the
    three channels are equal to the integer part of 255 Y / 1024.  For the
    luma of a source byte [l], which reaches the transform as 4 l, that is
    the integer part of 255 l / 256: at most 254, and 255 is never
    reached. *)
Theorem neutral_chroma_gives_grey (Y l : Z) :
  0 <= Y < 1024 -> 0 <= l < 256 ->
  YUV2RGB uchar3 (make_uint3 Y 512 512)
  = Uchar3 (Y * 255 / 1024) (Y * 255 / 1024) (Y * 255 / 1024)
  /\ YUV2RGB uchar4 (make_uint3 Y 512 512)
     = Uchar4 (Y * 255 / 1024) (Y * 255 / 1024) (Y * 255 / 1024) 255
  /\ YUV2RGB uchar3 (make_uint3 (4 * l) 512 512)
     = Uchar3 (l * 255 / 256) (l * 255 / 256) (l * 255 / 256)
  /\ l * 255 / 256 <= 254.
Proof.
  intros HY Hl.
  destruct (grey_sample Y HY) as [H3 H4].
  destruct (grey_sample (4 * l) ltac:(lia)) as [H3' _].
  assert (E : 4 * l * 255 / 1024 = l * 255 / 256).
  { replace (4 * l * 255) with (l * 255 * 4) by lia.
    change 1024 with (256 * 4). apply Z.div_mul_cancel_r; lia. }
  rewrite E in H3'.
  repeat split; try assumption.
  apply Z.lt_succ_r, Z.div_lt_upper_bound; lia.
Qed.

Lemma neutral_chroma_gives_grey_example :
  YUV2RGB uchar3 (make_uint3 (4 * 16) 512 512)
  = Uchar3 (16 * 255 / 256) (16 * 255 / 256) (16 * 255 / 256).
Proof. apply (neutral_chroma_gives_grey 64 16); lia. Defined.

(** ** Vertical interpolation *)



(** ** The luma-only kernel *)

Lemma grey_words_checked :
  forallb (fun l =>
             (RGBAPACK_8bit (F32.of_Z (and32 l 255)) (F32.of_Z (and32 l 255))
                            (F32.of_Z (and32 l 255)) 255
              =? grey_word l)
             && (and32 (shr32 (grey_word l) 24) 255 =? l)
             && (and32 (shr32 (grey_word l) 16) 255 =? l)
             && (and32 (shr32 (grey_word l) 8) 255 =? l)
             && (and32 (grey_word l) 255 =? 255))
          (zrange 256) = true.
Proof. vm_compute. reflexivity. Qed.

Lemma grey_word_of_byte l :
  0 <= l < 256 ->
  RGBAPACK_8bit (F32.of_Z (and32 l 255)) (F32.of_Z (and32 l 255))
                (F32.of_Z (and32 l 255)) 255
  = grey_word l
  /\ pixel_channels (Packed32 (grey_word l))
     = [ByteChannel l; ByteChannel l; ByteChannel l; ByteChannel 255].
Proof.
  intros Hl. pose proof grey_words_checked as H.
  rewrite forallb_forall in H. specialize (H l).
  rewrite in_zrange in H. specialize (H Hl).
  repeat match goal with
         | H : _ && _ = true |- _ =>
             apply Bool.andb_true_iff in H; destruct H
         | H : (_ =? _) = true |- _ => apply Z.eqb_eq in H
         end.
  split; [ assumption | ].
  cbn [pixel_channels]. congruence.
Qed.

(** X5. A unit of work of [Passthru] returns without any access when its
    column or its row is outside the image.  Inside, it loads the two luma
    bytes of its pixels and nothing else (the chroma plane is not read), and
    stores for each an opaque grey word of that luma, the three colour bytes
    equal to the luma byte and the alpha byte 255; the row of a pixel in the
    destination is found with the destination pitch in words,
    [nDestPitch >> 2]. *)
Theorem Passthru_unit
    (blockIdx blockDim threadIdx : dim3) (srcImageU8 : Z -> Z)
    (nSourcePitch nDestPitch width height : Z) :
  let x := thread_x blockIdx blockDim threadIdx in
  let y := thread_y blockIdx blockDim threadIdx in
  let dstImagePitch := Z.shiftr nDestPitch 2 in
  let luma col := u8 (srcImageU8 (y * nSourcePitch + col)) in
  let work := Passthru blockIdx blockDim threadIdx srcImageU8
                       nSourcePitch nDestPitch width height in
  (width <= u32 x \/ height <= u32 y -> work = (tt, []))
  /\ (0 <= x < width -> 0 <= y < height ->
      width <= nSourcePitch -> nSourcePitch * height < 2 ^ 32 ->
      width <= dstImagePitch -> dstImagePitch * height < 2 ^ 32 ->
      work = (tt, [Load (y * nSourcePitch + x);
                   Load (y * nSourcePitch + (x + 1));
                   Store (y * dstImagePitch + x)
                         (Packed32 (grey_word (luma x)));
                   Store (y * dstImagePitch + (x + 1))
                         (Packed32 (grey_word (luma (x + 1))))])
      /\ pixel_channels (Packed32 (grey_word (luma x)))
         = [ByteChannel (luma x); ByteChannel (luma x);
            ByteChannel (luma x); ByteChannel 255]).
Proof.
  intros x y dstImagePitch luma work. subst work. unfold Passthru.
  fold x y dstImagePitch. split.
  - intros Hout.
    destruct (Z.geb_spec (u32 x) width) as [Hx | Hx]; [ reflexivity | ].
    destruct (Z.geb_spec (u32 y) height) as [Hy | Hy]; [ reflexivity | ].
    lia.
  - intros Hx Hy Hwp Hsrc Hwd Hdst.
    assert (Hrow : 0 <= y * nSourcePitch
                   /\ y * nSourcePitch + nSourcePitch
                      <= nSourcePitch * height) by nia.
    assert (Hdrow : 0 <= y * dstImagePitch
                    /\ y * dstImagePitch + dstImagePitch
                       <= dstImagePitch * height) by nia.
    assert (Hh : height < 2 ^ 32) by nia.
    rewrite (u32_small x), (u32_small y) by lia.
    destruct (Z.geb_spec x width) as [Hx' | _]; [ lia | ].
    destruct (Z.geb_spec y height) as [Hy' | _]; [ lia | ].
    rewrite (u32_small nSourcePitch), (u32_small dstImagePitch) by nia.
    unfold add32, mul32.
    rewrite (u32_small (y * nSourcePitch)) by lia.
    rewrite (u32_small (y * nSourcePitch + x)) by lia.
    rewrite (u32_small (y * nSourcePitch + x + 1)) by lia.
    rewrite (u32_small (y * dstImagePitch)) by lia.
    rewrite (u32_small (y * dstImagePitch + x)) by lia.
    rewrite (u32_small (y * dstImagePitch + x + 1)) by lia.
    unfold bind, ret, load, store. cbn [fst snd app].
    replace (y * nSourcePitch + x + 1) with (y * nSourcePitch + (x + 1))
      by lia.
    replace (y * dstImagePitch + x + 1) with (y * dstImagePitch + (x + 1))
      by lia.
    fold (luma x) (luma (x + 1)).
    pose proof (u8_range (srcImageU8 (y * nSourcePitch + x))) as R0.
    pose proof (u8_range (srcImageU8 (y * nSourcePitch + (x + 1)))) as R1.
    fold (luma x) in R0. fold (luma (x + 1)) in R1.
    destruct (grey_word_of_byte (luma x) R0) as [-> Hc].
    destruct (grey_word_of_byte (luma (x + 1)) R1) as [-> _].
    split; [ reflexivity | exact Hc ].
Qed.

Lemma Passthru_unit_example :
  Passthru (mk_dim3 0 0 0) (mk_dim3 32 8 1) (mk_dim3 1 1 0) ramp 8 32 4 2
  = (tt, [Load 10; Load 11;
          Store 10 (Packed32 (grey_word 26));
          Store 11 (Packed32 (grey_word 27))]).
Proof.
  apply (Passthru_unit (mk_dim3 0 0 0) (mk_dim3 32 8 1) (mk_dim3 1 1 0)
           ramp 8 32 4 2); by_computation.
Defined.

(** ** The destination buffer after a launch *)

(** The content of an element after a log of accesses all of whose stores
    to it carry the same pixel. *)
Lemma apply_events_lookup (l : list event) (d : dest_buffer) (idx : Z)
    (v : pixel) :
  (forall v', In (Store idx v') l -> v' = v) ->
  apply_events d l idx = if existsb (stores_to idx) l then Some v else d idx.
Proof.
  unfold apply_events. revert d.
  induction l as [ | e l IH ]; intros d Hsame; [ reflexivity | ].
  cbn [fold_left existsb]. rewrite IH.
  - destruct (existsb (stores_to idx) l);
      [ rewrite Bool.orb_true_r; reflexivity | ].
    rewrite Bool.orb_false_r. destruct e as [ off | i v' ]; cbn.
    + reflexivity.
    + rewrite (Z.eqb_sym i idx).
      destruct (Z.eqb_spec idx i) as [-> | _]; [ | reflexivity ].
      f_equal. apply Hsame. left. reflexivity.
  - intros v' Hin. apply Hsame. right. exact Hin.
Qed.

Lemma in_stores l i v : In (i, v) (stores l) <-> In (Store i v) l.
Proof.
  unfold stores. rewrite in_flat_map. split.
  - intros (e & He & Hin). destruct e as [ off | i' v' ]; [ destruct Hin | ].
    destruct Hin as [E | []]. injection E as -> ->. exact He.
  - intros Hin. exists (Store i v). split; [ exact Hin | left; reflexivity ].
Qed.

Lemma even_column_pair x :
  Z.even x = true -> x - x mod 2 = x /\ (x + 1) - (x + 1) mod 2 = x.
Proof.
  intros H. apply Z.even_spec in H. destruct H as [k ->].
  split; Z.to_euclidean_division_equations; lia.
Qed.

(** The two stores of a unit inside the image, with their pixels. *)
Lemma unit_stores_converted
    (T : pixel_type) (blockIdx blockDim threadIdx : dim3)
    (srcImageU8 : Z -> Z) (nSourcePitch nDestPitch width height : Z) :
  let x := thread_x blockIdx blockDim threadIdx in
  let y := thread_y blockIdx blockDim threadIdx in
  addressable nSourcePitch width height ->
  0 <= x < width -> 0 <= y < height ->
  stores (snd (NV12ToRGBA T blockIdx blockDim threadIdx srcImageU8
                          nSourcePitch nDestPitch width height))
  = [(y * width + x,
      converted_pixel T srcImageU8 nSourcePitch height x y);
     (y * width + (x + 1),
      converted_pixel T srcImageU8 nSourcePitch height (x + 1) y)].
Proof.
  intros x y Haddr Hx Hy.
  destruct (even_column_pair x (thread_x_even blockIdx blockDim threadIdx))
    as [E0 E1].
  unfold converted_pixel, reconstructed_chroma, source_luma, source_chroma.
  rewrite E0, E1.
  destruct (land_1_cases y) as [Heven | Hodd].
  - rewrite (NV12ToRGBA_even_row T blockIdx blockDim threadIdx srcImageU8
               nSourcePitch nDestPitch width height Haddr Hx Hy Heven).
    fold x y. rewrite Heven. reflexivity.
  - rewrite (NV12ToRGBA_odd_row T blockIdx blockDim threadIdx srcImageU8
               nSourcePitch nDestPitch width height Haddr Hx Hy Hodd).
    fold x y. rewrite Hodd.
    destruct (Z.shiftr y 1 <? height / 2 - 1); reflexivity.
Qed.

(** Every store of any unit of work is the store of the converted pixel of
    a pixel of the image, when the width is even. *)
Lemma unit_store_is_converted
    (T : pixel_type) (blockIdx blockDim threadIdx : dim3)
    (srcImageU8 : Z -> Z) (nSourcePitch nDestPitch width height : Z)
    (i : Z) (v : pixel) :
  addressable nSourcePitch width height -> Z.even width = true ->
  In (Store i v)
     (snd (NV12ToRGBA T blockIdx blockDim threadIdx srcImageU8
                      nSourcePitch nDestPitch width height)) ->
  exists px py,
    0 <= px < width /\ 0 <= py < height /\ i = py * width + px
    /\ v = converted_pixel T srcImageU8 nSourcePitch height px py.
Proof.
  intros Haddr Hw Hin.
  set (x := thread_x blockIdx blockDim threadIdx) in *.
  set (y := thread_y blockIdx blockDim threadIdx) in *.
  destruct (Z.le_gt_cases width (u32 x)) as [Hox | Hix].
  { rewrite NV12ToRGBA_outside in Hin by (left; exact Hox). destruct Hin. }
  destruct (Z.le_gt_cases height (u32 y)) as [Hoy | Hiy].
  { rewrite NV12ToRGBA_outside in Hin by (right; exact Hoy). destruct Hin. }
  destruct (addressable_extents _ _ _ Haddr) as (Hw31 & Hh31 & _).
  assert (Hx : 0 <= x < width) by (apply to_int_below; [ lia | exact Hix ]).
  assert (Hy : 0 <= y < height) by (apply to_int_below; [ lia | exact Hiy ]).
  apply in_stores in Hin.
  rewrite (unit_stores_converted T blockIdx blockDim threadIdx srcImageU8
             nSourcePitch nDestPitch width height Haddr Hx Hy) in Hin.
  fold x y in Hin.
  pose proof (thread_x_even blockIdx blockDim threadIdx) as Hxe.
  fold x in Hxe. apply Z.even_spec in Hxe. destruct Hxe as [k Hk].
  apply Z.even_spec in Hw. destruct Hw as [j Hj].
  destruct Hin as [E | [E | []]]; injection E as <- <-.
  - exists x, y. repeat split; lia.
  - exists (x + 1), y. repeat split; lia.
Qed.

Lemma owner_coordinates_31 px py :
  0 <= px < 2 ^ 31 -> 0 <= py < 2 ^ 31 ->
  thread_x (fst (owner px py)) launch_blockDim (snd (owner px py))
  = px - px mod 2
  /\ thread_y (fst (owner px py)) launch_blockDim (snd (owner px py)) = py.
Proof.
  intros Hpx Hpy. unfold owner. cbn [fst snd].
  pose proof (Z.div_mod px 64 ltac:(lia)) as E64.
  pose proof (Z.mod_pos_bound px 64 ltac:(lia)) as B64.
  pose proof (Z.div_mod (px mod 64) 2 ltac:(lia)) as E2.
  pose proof (Z.mod_pos_bound (px mod 64) 2 ltac:(lia)) as B2.
  pose proof (Z.div_mod py 8 ltac:(lia)) as E8.
  pose proof (Z.mod_pos_bound py 8 ltac:(lia)) as B8.
  assert (Hmm : (px mod 64) mod 2 = px mod 2)
    by (Z.to_euclidean_division_equations; lia).
  assert (0 <= px / 64) by (apply Z.div_pos; lia).
  assert (0 <= py / 8) by (apply Z.div_pos; lia).
  assert (0 <= px mod 64 / 2) by (apply Z.div_pos; lia).
  rewrite thread_x_launch, thread_y_launch; cbn [dim_x dim_y]; lia.
Qed.

(** The destination after a launch with valid arguments on an image of even
    width: an element of the image holds the converted pixel, any other
    element is as before. *)
Lemma launch_image
    (T : pixel_type) (mem : Z -> Z) (lastError : cudaError_t)
    (srcDev srcPitch destDev destPitch width height : Z)
    (dest : dest_buffer) :
  srcDev <> 0 -> destDev <> 0 -> destPitch <> 0 ->
  addressable srcPitch width height -> Z.even width = true ->
  let image := apply_events dest
                 (snd (launchNV12ToRGBA T mem lastError srcDev srcPitch
                                        destDev destPitch width height)) in
  (forall px py, 0 <= px < width -> 0 <= py < height ->
     image (py * width + px)
     = Some (converted_pixel T (fun off => mem (srcDev + off)) srcPitch
                             height px py))
  /\ (forall idx, ~ 0 <= idx < width * height -> image idx = dest idx).
Proof.
  intros Hs Hd Hdp Haddr Hw image. subst image.
  pose proof Haddr as (Hwp & Hh0 & Hfit).
  destruct (addressable_extents _ _ _ Haddr) as (Hw31 & Hh31 & _).
  unfold launchNV12ToRGBA.
  apply Z.eqb_neq in Hs, Hd, Hdp. rewrite Hs, Hd, Hdp.
  assert ((srcPitch =? 0) = false) as -> by (apply Z.eqb_neq; lia).
  assert ((width =? 0) = false) as -> by (apply Z.eqb_neq; lia).
  assert ((height =? 0) = false) as -> by (apply Z.eqb_neq; lia).
  cbn [orb snd]. rewrite !u32_small by lia. unfold run_kernel.
  set (src := fun off => mem (srcDev + off)).
  set (unit_log := fun bt : dim3 * dim3 =>
         snd (NV12ToRGBA T (fst bt) launch_blockDim (snd bt) src srcPitch
                         destPitch width height)).
  assert (Hlog : forall i v,
            In (Store i v)
               (flat_map unit_log
                  (grid_threads (launch_gridDim width height)
                                launch_blockDim)) ->
            exists px py,
              0 <= px < width /\ 0 <= py < height /\ i = py * width + px
              /\ v = converted_pixel T src srcPitch height px py).
  { intros i v Hin. apply in_flat_map in Hin.
    destruct Hin as (bt & _ & Hin).
    exact (unit_store_is_converted T _ _ _ src srcPitch destPitch width
             height i v Haddr Hw Hin). }
  split.
  - intros px py Hpx Hpy.
    rewrite (apply_events_lookup _ dest (py * width + px)
               (converted_pixel T src srcPitch height px py)).
    + assert (existsb (stores_to (py * width + px))
                (flat_map unit_log
                   (grid_threads (launch_gridDim width height)
                                 launch_blockDim)) = true) as ->;
        [ | reflexivity ].
      apply existsb_exists.
      destruct (owner_coordinates_31 px py ltac:(lia) ltac:(lia))
        as [Hox Hoy].
      pose proof (Z.mod_pos_bound px 2 ltac:(lia)) as Hp2.
      pose proof (Z.mod_le px 2 ltac:(lia) ltac:(lia)) as Hp2'.
      assert (Hin : In (owner px py)
                       (grid_threads (launch_gridDim width height)
                                     launch_blockDim)).
      { unfold owner. apply in_grid_of_launch. cbn [dim_x dim_y dim_z].
        Z.to_euclidean_division_equations. lia. }
      assert (Hst : exists v,
                In (Store (py * width + px) v) (unit_log (owner px py))).
      { assert (Hxe : Z.even (px - px mod 2) = true).
        { rewrite <- Hox. apply thread_x_even. }
        apply Z.even_spec in Hxe. destruct Hxe as [k Hk].
        apply Z.even_spec in Hw. destruct Hw as [j Hj].
        pose proof (unit_stores_converted T (fst (owner px py))
                      launch_blockDim (snd (owner px py)) src srcPitch
                      destPitch width height Haddr) as Hu.
        cbv zeta in Hu. rewrite Hox, Hoy in Hu.
        specialize (Hu ltac:(lia) ltac:(lia)).
        destruct (Z.eq_dec (px mod 2) 0) as [E | E].
        - eexists. apply in_stores. unfold unit_log. rewrite Hu.
          left. f_equal. lia.
        - eexists. apply in_stores. unfold unit_log. rewrite Hu.
          right. left. f_equal. lia. }
      destruct Hst as (v & Hv).
      exists (Store (py * width + px) v). split.
      * apply in_flat_map. exists (owner px py). auto.
      * cbn. apply Z.eqb_refl.
    + intros v' Hin. destruct (Hlog _ _ Hin) as (px' & py' & Hx' & Hy' & E & ->).
      apply dest_index_injective in E; [ | lia | lia ].
      destruct E as [-> ->]. reflexivity.
  - intros idx Hout.
    rewrite (apply_events_lookup _ dest idx (Packed32 0)).
    + assert (existsb (stores_to idx)
                (flat_map unit_log
                   (grid_threads (launch_gridDim width height)
                                 launch_blockDim)) = false) as ->;
        [ | reflexivity ].
      apply Bool.not_true_is_false. intros Hex.
      apply existsb_exists in Hex. destruct Hex as (e & Hin & He).
      destruct e as [ off | i v ]; [ discriminate He | ].
      cbn in He. apply Z.eqb_eq in He. subst i.
      destruct (Hlog _ _ Hin) as (px' & py' & Hx' & Hy' & E & _).
      apply Hout. nia.
    + intros v' Hin. exfalso.
      destruct (Hlog _ _ Hin) as (px' & py' & Hx' & Hy' & E & _).
      apply Hout. nia.
Qed.

(** X6. After a launch with valid arguments on an image of even width, the
    destination element [y * width + x] of every pixel (x, y) of the image
    holds the conversion of that pixel: [YUV2RGB] of its own luma byte and
    of the chroma pair of its column pair, taken from chroma row [y >> 1] on
    an even row and on the last chroma row, and averaged with the next
    chroma row otherwise (all on the 10-bit scale). *)
Theorem launch_stores_converted_image
    (T : pixel_type) (mem : Z -> Z) (lastError : cudaError_t)
    (srcDev srcPitch destDev destPitch width height px py : Z)
    (dest : dest_buffer) :
  srcDev <> 0 -> destDev <> 0 -> destPitch <> 0 ->
  addressable srcPitch width height -> Z.even width = true ->
  0 <= px < width -> 0 <= py < height ->
  apply_events dest
    (snd (launchNV12ToRGBA T mem lastError srcDev srcPitch destDev destPitch
                           width height))
    (py * width + px)
  = Some (converted_pixel T (fun off => mem (srcDev + off)) srcPitch height
                          px py).
Proof.
  intros Hs Hd Hdp Haddr Hw Hpx Hpy.
  apply (launch_image T mem lastError srcDev srcPitch destDev destPitch
           width height dest Hs Hd Hdp Haddr Hw); assumption.
Qed.

Lemma launch_stores_converted_image_example :
  apply_events (fun _ => None)
    (snd (launchNV12ToRGBA uchar4 ramp cudaSuccess 1 8 1 16 4 6))
    (1 * 4 + 3)
  = Some (converted_pixel uchar4 (fun off => ramp (1 + off)) 8 6 3 1).
Proof.
  apply (launch_stores_converted_image uchar4 ramp cudaSuccess 1 8 1 16 4 6
           3 1 (fun _ => None));
    solve [ discriminate | reflexivity | lia | unfold addressable; lia ].
Defined.

(** X7. A launch with valid arguments on an image of even width changes
    nothing outside the [width * height] elements of the image: every other
    element of the destination is as it was before the launch. *)
Theorem launch_preserves_other_elements
    (T : pixel_type) (mem : Z -> Z) (lastError : cudaError_t)
    (srcDev srcPitch destDev destPitch width height idx : Z)
    (dest : dest_buffer) :
  srcDev <> 0 -> destDev <> 0 -> destPitch <> 0 ->
  addressable srcPitch width height -> Z.even width = true ->
  ~ 0 <= idx < width * height ->
  apply_events dest
    (snd (launchNV12ToRGBA T mem lastError srcDev srcPitch destDev destPitch
                           width height))
    idx
  = dest idx.
Proof.
  intros Hs Hd Hdp Haddr Hw Hout.
  apply (launch_image T mem lastError srcDev srcPitch destDev destPitch
           width height dest Hs Hd Hdp Haddr Hw); assumption.
Qed.

Lemma launch_preserves_other_elements_example :
  apply_events (fun i => Some (Packed32 i))
    (snd (launchNV12ToRGBA uchar4 ramp cudaSuccess 1 8 1 16 4 6)) 24
  = Some (Packed32 24).
Proof.
  apply (launch_preserves_other_elements uchar4 ramp cudaSuccess 1 8 1 16 4
           6 24 (fun i => Some (Packed32 i)));
    solve [ discriminate | reflexivity | lia | unfold addressable; lia ].
Defined.



(** ** The extent of the source that is read *)

(** X9. For an even width and any height, odd heights included, every load
    of every unit of work is inside the luma plane followed by
    [(height + 1) / 2] chroma rows.  The rounding up is needed: for an odd
    height the units of the last row read chroma row [height / 2], which
    starts where the [height / 2] rows of [src_extent] end. *)
Theorem source_reads_bounded
    (T : pixel_type) (blockIdx blockDim threadIdx : dim3)
    (srcImageU8 : Z -> Z) (nSourcePitch nDestPitch width height : Z) :
  let x := thread_x blockIdx blockDim threadIdx in
  let y := thread_y blockIdx blockDim threadIdx in
  let work := snd (NV12ToRGBA T blockIdx blockDim threadIdx srcImageU8
                              nSourcePitch nDestPitch width height) in
  addressable nSourcePitch width height -> Z.even width = true ->
  Forall (fun off =>
            0 <= off
            < nSourcePitch * height + nSourcePitch * ((height + 1) / 2))
         (loads work)
  /\ (Z.odd height = true -> 0 <= x < width -> y = height - 1 ->
      In (nSourcePitch * height + height / 2 * nSourcePitch + x)
         (loads work)
      /\ src_extent nSourcePitch height
         <= nSourcePitch * height + height / 2 * nSourcePitch + x).
Proof.
  intros x y work Haddr Hw. subst work.
  pose proof Haddr as (Hwp & Hh0 & Hfit).
  destruct (addressable_extents _ _ _ Haddr) as (Hw31 & Hh31 & _).
  split.
  - destruct (Z.le_gt_cases width (u32 x)) as [Hox | Hix];
      [ rewrite NV12ToRGBA_outside by (left; exact Hox); constructor | ].
    destruct (Z.le_gt_cases height (u32 y)) as [Hoy | Hiy];
      [ rewrite NV12ToRGBA_outside by (right; exact Hoy); constructor | ].
    assert (Hx : 0 <= x < width)
      by (apply to_int_below; [ lia | exact Hix ]).
    assert (Hy : 0 <= y < height)
      by (apply to_int_below; [ lia | exact Hiy ]).
    pose proof (thread_x_even blockIdx blockDim threadIdx) as Hxe.
    fold x in Hxe. apply Z.even_spec in Hxe. destruct Hxe as [i Hi].
    apply Z.even_spec in Hw. destruct Hw as [j Hj].
    set (k := (height + 1) / 2).
    assert (Hk : height <= 2 * k <= height + 1)
      by (subst k; Z.to_euclidean_division_equations; lia).
    assert (Hr : 0 <= Z.shiftr y 1 /\ 2 * Z.shiftr y 1 <= y).
    { rewrite Z.shiftr_div_pow2 by lia. change (2 ^ 1) with 2.
      Z.to_euclidean_division_equations. lia. }
    assert (Hcrow : forall r, 0 <= r < k ->
              0 <= r * nSourcePitch
              /\ r * nSourcePitch + nSourcePitch <= nSourcePitch * k)
      by (intros; nia).
    assert (Hrow : 0 <= y * nSourcePitch
                   /\ y * nSourcePitch + nSourcePitch
                      <= nSourcePitch * height) by nia.
    pose proof (Hcrow (Z.shiftr y 1) ltac:(lia)) as Hcy.
    destruct (land_1_cases y) as [Heven | Hodd].
    + rewrite (NV12ToRGBA_even_row T blockIdx blockDim threadIdx srcImageU8
                 nSourcePitch nDestPitch width height Haddr Hx Hy Heven).
      fold x y. cbn [snd loads flat_map app].
      unfold luma_offset, chroma_offset.
      repeat (constructor; [ lia | ]). constructor.
    + rewrite (NV12ToRGBA_odd_row T blockIdx blockDim threadIdx srcImageU8
                 nSourcePitch nDestPitch width height Haddr Hx Hy Hodd).
      fold x y.
      destruct (Z.ltb_spec (Z.shiftr y 1) (height / 2 - 1)) as [Hint | _].
      * assert (Z.shiftr y 1 + 1 < k)
          by (subst k; Z.to_euclidean_division_equations; lia).
        pose proof (Hcrow (Z.shiftr y 1 + 1) ltac:(lia)) as Hcn.
        cbn [snd loads flat_map app].
        unfold luma_offset, chroma_offset.
        repeat (constructor; [ lia | ]). constructor.
      * cbn [snd loads flat_map app].
        unfold luma_offset, chroma_offset.
        repeat (constructor; [ lia | ]). constructor.
  - intros Hodd Hx Hy.
    assert (Hy' : 0 <= y < height) by lia.
    apply Z.odd_spec in Hodd. destruct Hodd as [m Hm].
    assert (Hhalf : height / 2 = m)
      by (Z.to_euclidean_division_equations; lia).
    assert (Heven : Z.land y 1 = 0).
    { change (Z.land y 1) with (Z.land y (Z.ones 1)).
      rewrite Z.land_ones by lia. change (2 ^ 1) with 2.
      Z.to_euclidean_division_equations. lia. }
    assert (Hsh : Z.shiftr y 1 = m).
    { rewrite Z.shiftr_div_pow2 by lia. change (2 ^ 1) with 2.
      Z.to_euclidean_division_equations. lia. }
    rewrite (NV12ToRGBA_even_row T blockIdx blockDim threadIdx srcImageU8
               nSourcePitch nDestPitch width height Haddr Hx Hy' Heven).
    fold x y. rewrite Hsh, Hhalf. cbn [snd loads flat_map app].
    unfold chroma_offset, src_extent. rewrite Hhalf.
    split; [ right; right; left; reflexivity | lia ].
Qed.

Lemma source_reads_bounded_example :
  (* the only row of a 2x1 image *)
  In (4 * 1 + 1 / 2 * 4 + 0)
     (loads (snd (NV12ToRGBA uchar4 (mk_dim3 0 0 0) (mk_dim3 32 8 1)
                             (mk_dim3 0 0 0) ramp 4 8 2 1)))
  /\ src_extent 4 1 <= 4 * 1 + 1 / 2 * 4 + 0.
Proof.
  apply (source_reads_bounded uchar4 (mk_dim3 0 0 0) (mk_dim3 32 8 1)
           (mk_dim3 0 0 0) ramp 4 8 2 1);
    solve [ unfold addressable; lia | reflexivity | by_computation ].
Defined.

(** ** The entry points without pitches *)

(** X10. The entry points without pitches, called with valid pointers on an
    image of even width, pass validation whatever the pixel type (their
    pitches are zero only if the width is) and return the last error of the
    runtime; the source is read as packed, so that destination element [i]
    of the image holds the conversion of the pixel whose luma is byte [i] of
    the source, and the chroma plane starts at byte [width * height]. *)
Theorem packed_conversion
    (T : pixel_type) (mem : Z -> Z) (lastError : cudaError_t)
    (srcDev destDev width height px py : Z) (dest : dest_buffer) :
  srcDev <> 0 -> destDev <> 0 ->
  0 < width -> 0 < height -> 2 * (width * height) < 2 ^ 32 ->
  Z.even width = true ->
  0 <= px < width -> 0 <= py < height ->
  let call := cudaNV12ToRGB_packed T mem lastError srcDev destDev width
                                   height in
  let src := fun off => mem (srcDev + off) in
  let i := py * width + px in
  fst call = lastError
  /\ apply_events dest (snd call) i
     = Some (converted_pixel T src width height px py)
  /\ source_luma src width px py = u8 (mem (srcDev + i))
  /\ chroma_offset width height 0 0 = width * height.
Proof.
  intros Hs Hd Hw Hh Hfit Hwe Hpx Hpy call src i. subst call src i.
  unfold cudaNV12ToRGB_packed, cudaNV12ToRGB_pitched.
  assert (Hsz : 0 < sizeof T) by (destruct T; reflexivity).
  assert (Hdp : width * sizeof T <> 0) by nia.
  assert (Haddr : addressable (width * 1) width height)
    by (unfold addressable; lia).
  split; [ | split; [ | split ] ].
  - unfold launchNV12ToRGBA.
    apply Z.eqb_neq in Hs, Hd, Hdp. rewrite Hs, Hd, Hdp.
    assert ((width * 1 =? 0) = false) as -> by (apply Z.eqb_neq; lia).
    assert ((width =? 0) = false) as -> by (apply Z.eqb_neq; lia).
    assert ((height =? 0) = false) as -> by (apply Z.eqb_neq; lia).
    reflexivity.
  - destruct (launch_image T mem lastError srcDev (width * 1) destDev
                (width * sizeof T) width height dest Hs Hd Hdp Haddr Hwe)
      as [Himg _].
    rewrite (Himg px py Hpx Hpy). rewrite Z.mul_1_r. reflexivity.
  - unfold source_luma, luma_offset. reflexivity.
  - unfold chroma_offset. lia.
Qed.

Lemma packed_conversion_example :
  fst (cudaNV12ToRGB_packed float3 ramp (cudaErrorRuntime 7) 1 1 4 2)
  = cudaErrorRuntime 7
  /\ apply_events (fun _ => None)
       (snd (cudaNV12ToRGB_packed float3 ramp (cudaErrorRuntime 7) 1 1 4 2))
       (1 * 4 + 3)
     = Some (converted_pixel float3 (fun off => ramp (1 + off)) 4 2 3 1)
  /\ source_luma (fun off => ramp (1 + off)) 4 3 1
     = u8 (ramp (1 + (1 * 4 + 3)))
  /\ chroma_offset 4 2 0 0 = 4 * 2.
Proof.
  apply (packed_conversion float3 ramp (cudaErrorRuntime 7) 1 1 4 2 3 1
           (fun _ => None));
    solve [ discriminate | reflexivity | lia ].
Defined.

(** ** Byte and floating-point destinations *)

Lemma YUV2RGB_byte_type T yuvi :
  YUV2RGB (byte_type T) yuvi = quantize (YUV2RGB T yuvi).
Proof.
  unfold YUV2RGB.
  destruct (YUV2RGB_channels_clamped yuvi) as (r & g & b & ->).
  destruct (clamp_in_range r) as (_ & _ & Hr).
  destruct (clamp_in_range g) as (_ & _ & Hg).
  destruct (clamp_in_range b) as (_ & _ & Hb).
  destruct T; cbn [byte_type make_vec quantize]; try reflexivity;
    rewrite Hr, Hg, Hb; reflexivity.
Qed.

Lemma kernel_byte_type
    (T : pixel_type) (blockIdx blockDim threadIdx : dim3)
    (srcImageU8 : Z -> Z) (nSourcePitch nDestPitch width height : Z) :
  snd (NV12ToRGBA (byte_type T) blockIdx blockDim threadIdx srcImageU8
                  nSourcePitch nDestPitch width height)
  = map quantize_event
        (snd (NV12ToRGBA T blockIdx blockDim threadIdx srcImageU8
                         nSourcePitch nDestPitch width height)).
Proof.
  unfold NV12ToRGBA.
  repeat match goal with
         | |- context [if ?c then _ else _] => destruct c
         end;
    unfold bind, ret, load, store; cbn [fst snd app map quantize_event];
    rewrite ?YUV2RGB_byte_type; reflexivity.
Qed.

(** X11. A conversion to a byte destination is the conversion to the
    floating-point destination of the same channel count with every
    channel replaced by its integer part: the launch makes the same loads
    and stores at the same elements, and no byte wraps around, the
    floating-point channels being in [0, 255]. *)
Theorem byte_image_is_truncated_float_image
    (T : pixel_type) (mem : Z -> Z) (lastError : cudaError_t)
    (srcDev srcPitch destDev destPitch width height : Z) :
  (forall yuvi, YUV2RGB (byte_type T) yuvi = quantize (YUV2RGB T yuvi))
  /\ byte_type float3 = uchar3 /\ byte_type float4 = uchar4
  /\ launchNV12ToRGBA (byte_type T) mem lastError srcDev srcPitch destDev
                      destPitch width height
     = (fst (launchNV12ToRGBA T mem lastError srcDev srcPitch destDev
                              destPitch width height),
        map quantize_event
            (snd (launchNV12ToRGBA T mem lastError srcDev srcPitch destDev
                                   destPitch width height))).
Proof.
  split; [ intros yuvi; apply YUV2RGB_byte_type | ].
  split; [ reflexivity | ]. split; [ reflexivity | ].
  unfold launchNV12ToRGBA.
  destruct ((srcDev =? 0) || (destDev =? 0)); [ reflexivity | ].
  destruct ((srcPitch =? 0) || (destPitch =? 0) || (width =? 0)
            || (height =? 0)); [ reflexivity | ].
  cbn [fst snd]. f_equal. unfold run_kernel. rewrite map_flat_map.
  apply flat_map_ext. intros bt. apply kernel_byte_type.
Qed.

(** ** Repeating a launch *)


